(** * Challenge 4: the cascading rate limiters (Caller -> Throttle -> Echo)

    A shallow embedding of the three services of [challenge4]:
    - [Throttler]   the sliding-window counter of the Throttle Service
                    (throttle-service/src/index.ts, class [Throttler]);
    - [RateLimiter] the sliding-window counter of the Echo Service
                    (class [RateLimiter]);
    - the HTTP handlers [POST /forward], [POST /echo] and [GET /health];
    - the Caller Service ([makeCall], [makeCalls], [main]).

    The source file of the Throttle Service holds two revisions of it; the
    embedding follows the later one, whose [canForward] chains its body on
    the promise [this.processing].

    Conventions.  Timestamps are the integers returned by [Date.now()]
    (milliseconds) and are modelled in [Z]; every call of [Date.now()] in
    the source becomes an explicit argument [now] of the embedded method.
    Array lengths and counters are JavaScript numbers holding small
    integers and are modelled in [Z] as well.  A method that mutates
    [this] returns the new object next to its result. *)

From Stdlib Require Import ZArith Lia.
From stdpp Require Import base decidable list numbers sorting strings pretty gmap.

Local Open Scope Z_scope.

(** ** The Throttle Service's counter *)

Module Throttler.

(** [class Throttler]: the three data fields.  [maxCallsPerMinute] is a
    [readonly] instance field; the constructor below sets it to 4096.  The
    fourth field, the promise chain [processing], is the queue of callbacks
    of [GateLoop.Sys] below. *)
Record t : Type := mk {
  calls : list Z;
  maxCallsPerMinute : Z;
  throttledCount : Z
}.

Definition set_calls (cs : list Z) (this : t) : t :=
  mk cs this.(maxCallsPerMinute) this.(throttledCount).

Definition set_throttledCount (n : Z) (this : t) : t :=
  mk this.(calls) this.(maxCallsPerMinute) n.

(** [new Throttler()] *)
Definition new : t := mk [] 4096 0.

(** The body of the callback chained by [canForward], run at [Date.now() = now]. *)
Definition canForward (now : Z) (this : t) : bool * t :=
  let oneMinuteAgo := now - 60000 in
  let this := set_calls (filter (λ timestamp, timestamp > oneMinuteAgo) this.(calls)) this in
  if bool_decide (Z.of_nat (length this.(calls)) < this.(maxCallsPerMinute)) then
    (true, set_calls (this.(calls) ++ [now]) this)
  else
    (false, set_throttledCount (this.(throttledCount) + 1) this).

Definition getCurrentCount (now : Z) (this : t) : Z * t :=
  let oneMinuteAgo := now - 60000 in
  let this := set_calls (filter (λ timestamp, timestamp > oneMinuteAgo) this.(calls)) this in
  (Z.of_nat (length this.(calls)), this).

Definition getThrottledCount (this : t) : Z := this.(throttledCount).

Definition getRemainingCapacity (now : Z) (this : t) : Z * t :=
  let '(count, this) := getCurrentCount now this in
  (Z.max 0 (this.(maxCallsPerMinute) - count), this).

(** A sequence of [canForward] calls, one per timestamp, in order. *)
Fixpoint run (ts : list Z) (this : t) : list bool * t :=
  match ts with
  | [] => ([], this)
  | now :: ts =>
      let '(r, this) := canForward now this in
      let '(rs, this) := run ts this in
      (r :: rs, this)
  end.

(** The timestamps of the calls of such a sequence that returned [true]. *)
Fixpoint admissions (ts : list Z) (this : t) : list Z :=
  match ts with
  | [] => []
  | now :: ts =>
      let '(r, this) := canForward now this in
      if r then now :: admissions ts this else admissions ts this
  end.

End Throttler.

(** ** The Echo Service's counter *)

Module RateLimiter.

(** [class RateLimiter]: no rejection counter here. *)
Record t : Type := mk {
  calls : list Z;
  maxCallsPerMinute : Z
}.

Definition set_calls (cs : list Z) (this : t) : t :=
  mk cs this.(maxCallsPerMinute).

(** [new RateLimiter()] *)
Definition new : t := mk [] 512.

Definition isAllowed (now : Z) (this : t) : bool * t :=
  let oneMinuteAgo := now - 60000 in
  let this := set_calls (filter (λ timestamp, timestamp > oneMinuteAgo) this.(calls)) this in
  if bool_decide (Z.of_nat (length this.(calls)) < this.(maxCallsPerMinute)) then
    (true, set_calls (this.(calls) ++ [now]) this)
  else
    (false, this).

Definition getCurrentCount (now : Z) (this : t) : Z * t :=
  let oneMinuteAgo := now - 60000 in
  let this := set_calls (filter (λ timestamp, timestamp > oneMinuteAgo) this.(calls)) this in
  (Z.of_nat (length this.(calls)), this).

Definition getRemainingCapacity (now : Z) (this : t) : Z * t :=
  let '(count, this) := getCurrentCount now this in
  (Z.max 0 (this.(maxCallsPerMinute) - count), this).

Fixpoint run (ts : list Z) (this : t) : list bool * t :=
  match ts with
  | [] => ([], this)
  | now :: ts =>
      let '(r, this) := isAllowed now this in
      let '(rs, this) := run ts this in
      (r :: rs, this)
  end.

Fixpoint admissions (ts : list Z) (this : t) : list Z :=
  match ts with
  | [] => []
  | now :: ts =>
      let '(r, this) := isAllowed now this in
      if r then now :: admissions ts this else admissions ts this
  end.

End RateLimiter.

(** ** Windows *)

(** The window that both counters use at time [now]: a timestamp is kept
    when it is strictly newer than [now - 60000]. *)
Definition windowDurationMs : Z := 60000.

Definition prune (now : Z) (cs : list Z) : list Z :=
  filter (λ timestamp, timestamp > now - windowDurationMs) cs.

(** Number of timestamps of [cs] in the trailing window [(t - 60000, t]]. *)
Definition windowCount (t : Z) (cs : list Z) : Z :=
  Z.of_nat (length (filter (λ a, t - windowDurationMs < a ∧ a ≤ t) cs)).

(** All the timestamps fit in one window [(w, w + 60000]]. *)
Definition within_one_window (ts : list Z) : Prop :=
  ∃ w, Forall (λ a, w < a ∧ a ≤ w + windowDurationMs) ts.

(** The Echo Service's counter is the Throttle Service's without [throttledCount]. *)
Definition forget (th : Throttler.t) : RateLimiter.t :=
  RateLimiter.mk th.(Throttler.calls) th.(Throttler.maxCallsPerMinute).

(** ** HTTP values *)

(** Parsed JSON, as [express.json()] and axios hand it to the code.  The
    fields of an object are listed once each, in order. *)
#[local] Set Warnings "-register-all".
#[local] Unset Elimination Schemes.
Inductive Json : Type :=
  | JNull
  | JBool (b : bool)
  | JNum (n : Z)
  | JStr (s : string)
  | JArr (items : list Json)
  | JObj (fields : list (string * Json)).
#[local] Set Elimination Schemes.

(** [res.status(status).json(body)]; [res.json(body)] alone has status 200. *)
Record Response : Type := mkResponse {
  status : Z;
  body : Json
}.

(** [obj.key] on a parsed body; [None] stands for [undefined]. *)
Fixpoint assoc (key : string) (fields : list (string * Json)) : option Json :=
  match fields with
  | [] => None
  | (k, v) :: fields => if bool_decide (k = key) then Some v else assoc key fields
  end.

Definition field (key : string) (j : Json) : option Json :=
  match j with
  | JObj fields => assoc key fields
  | _ => None
  end.

(** JavaScript truthiness, for [receivedData.id || "unknown"]. *)
Definition truthy (j : option Json) : bool :=
  match j with
  | None | Some JNull => false
  | Some (JBool b) => b
  | Some (JNum n) => bool_decide (n ≠ 0)
  | Some (JStr s) => bool_decide (s ≠ "")
  | Some (JArr _) | Some (JObj _) => true
  end.

(** What [catch (error)] receives when [axiosInstance.post] rejects:
    [message] is [error.message] when [error instanceof Error];
    [response] is [error.response.status] when [axios.isAxiosError(error)]
    and the peer answered (axios rejects on every status outside 2xx);
    it is [None] when no answer arrived (refused connection, timeout). *)
Record Thrown : Type := mkThrown {
  instanceofError : bool;
  message : string;
  isAxiosError : bool;
  response : option Z
}.

(** The two ways [await axiosInstance.post(url, data)] ends. *)
Inductive PostResult : Type :=
  | Resolved (data : Json)
  | Rejected (error : Thrown).

(** What axios puts in a rejection.  The HTTP client is a dependency of
    the services, not part of their source; this is the behaviour the
    handlers meet.  When the peer answers with a status outside 2xx, axios
    rejects with an [AxiosError] that carries the answer as
    [error.response] and the message
    ["Request failed with status code " + status].  When no answer arrives
    (["timeout of 5000ms exceeded"], ["connect ECONNREFUSED ..."],
    ["socket hang up"]) the error has no [response], and its message is
    that of the transport, never worded as a status message. *)
Definition statusMessage (status : Z) : string :=
  "Request failed with status code " +:+ pretty status.

Definition axiosError (error : Thrown) : bool :=
  error.(instanceofError) && error.(isAxiosError) &&
  match error.(response) with
  | Some status => bool_decide (error.(message) = statusMessage status)
  | None => negb (String.prefix "Request failed with status code " error.(message))
  end.

(** ** The Throttle Service: [POST /forward] and [GET /health] *)

Module Gate.

(** The lines the service hands to [logger.log], kept structured. *)
Inductive Log : Type :=
  | Received (requestId receivedData : Json) (currentCount remainingCapacity : Z)
  | Throttled (requestId : Json) (throttledCount : Z)
  | Forwarding (requestId receivedData : Json)
  | Forwarded (requestId data : Json)
  | ForwardError (requestId : Json) (errorMessage : string) (statusCode : option Z).

(** [const requestId = receivedData.id || "unknown"] *)
Definition requestId (receivedData : Json) : Json :=
  if truthy (field "id" receivedData)
  then default (JStr "unknown") (field "id" receivedData)
  else JStr "unknown".

Definition throttledBody (throttledCount : Z) : Json :=
  JObj [("error", JStr "Throttled");
        ("message", JStr "Request rate exceeds 4,096 calls per minute");
        ("throttledCount", JNum throttledCount)].

Definition errorMessage (error : Thrown) : string :=
  if error.(instanceofError) then error.(message) else "Unknown error".

Definition statusCode (error : Thrown) : option Z :=
  if error.(isAxiosError) then error.(response) else None.

Definition failedBody (error : Thrown) (receivedData : Json) : Json :=
  JObj [("error", JStr "Forwarding failed");
        ("message", JStr (errorMessage error));
        ("requestId", requestId receivedData)].

(** The handler between [await throttler.canForward()] and
    [await axiosInstance.post(...)]: either it answers 429 at once, or
    it has a request to send to the Echo Service.  [t2] and [t3] are the
    clock readings of [getCurrentCount] and [getRemainingCapacity]. *)
Definition afterCanForward (receivedData : Json) (canForward : bool) (t2 t3 : Z)
    (throttler : Throttler.t) : (Response + Json) * Throttler.t * list Log :=
  let '(currentCount, throttler) := Throttler.getCurrentCount t2 throttler in
  let '(remainingCapacity, throttler) := Throttler.getRemainingCapacity t3 throttler in
  let log := [Received (requestId receivedData) receivedData currentCount remainingCapacity] in
  if negb canForward then
    let throttledCount := Throttler.getThrottledCount throttler in
    (inl (mkResponse 429 (throttledBody throttledCount)), throttler,
     log ++ [Throttled (requestId receivedData) throttledCount])
  else
    (inr receivedData, throttler, log ++ [Forwarding (requestId receivedData) receivedData]).

(** The handler after [await axiosInstance.post(...)]: the [try] tail and the [catch]. *)
Definition afterPost (receivedData : Json) (result : PostResult) : Response * list Log :=
  match result with
  | Resolved data =>
      (mkResponse 200 data, [Forwarded (requestId receivedData) data])
  | Rejected error =>
      (mkResponse 500 (failedBody error receivedData),
       [ForwardError (requestId receivedData) (errorMessage error) (statusCode error)])
  end.

(** One whole request: [t1] is the clock reading of the chained callback,
    [post] is the Echo Service as axios shows it. *)
Definition forward (receivedData : Json) (t1 t2 t3 : Z) (post : Json → PostResult)
    (throttler : Throttler.t) : Response * Throttler.t * list Log :=
  let '(canForward, throttler) := Throttler.canForward t1 throttler in
  let '(next, throttler, log) := afterCanForward receivedData canForward t2 t3 throttler in
  match next with
  | inl res => (res, throttler, log)
  | inr data =>
      let '(res, log') := afterPost receivedData (post data) in
      (res, throttler, log ++ log')
  end.

(** [app.get("/health", ...)]: the object literal is evaluated field by field. *)
Definition health (t1 t2 : Z) (throttler : Throttler.t) : Response * Throttler.t :=
  let '(currentCalls, throttler) := Throttler.getCurrentCount t1 throttler in
  let '(remainingCapacity, throttler) := Throttler.getRemainingCapacity t2 throttler in
  (mkResponse 200 (JObj [("status", JStr "ok");
                         ("service", JStr "Throttle Service");
                         ("port", JNum 4002);
                         ("currentCalls", JNum currentCalls);
                         ("remainingCapacity", JNum remainingCapacity);
                         ("throttledCount", JNum (Throttler.getThrottledCount throttler));
                         ("maxCallsPerMinute", JNum 4096)]),
   throttler).

End Gate.

(** ** The Echo Service: [POST /echo] and [GET /health] *)

Module Sink.

Inductive Log : Type :=
  | Received (receivedData : Json) (currentCount remainingCapacity : Z)
  | LimitExceeded (response : string)
  | Echoing (receivedData : Json).

(** The handler is synchronous; [t1], [t2], [t3] are the clock readings of
    [getCurrentCount], [getRemainingCapacity] and [isAllowed]. *)
Definition echo (receivedData : Json) (t1 t2 t3 : Z)
    (rateLimiter : RateLimiter.t) : Response * RateLimiter.t * list Log :=
  let '(currentCount, rateLimiter) := RateLimiter.getCurrentCount t1 rateLimiter in
  let '(remainingCapacity, rateLimiter) := RateLimiter.getRemainingCapacity t2 rateLimiter in
  let log := [Received receivedData currentCount remainingCapacity] in
  let '(allowed, rateLimiter) := RateLimiter.isAllowed t3 rateLimiter in
  if negb allowed then
    let response := "Exceeding Limit" in
    (mkResponse 429 (JObj [("message", JStr response)]), rateLimiter,
     log ++ [LimitExceeded response])
  else
    (mkResponse 200 receivedData, rateLimiter, log ++ [Echoing receivedData]).

Definition health (t1 t2 : Z) (rateLimiter : RateLimiter.t) : Response * RateLimiter.t :=
  let '(currentCalls, rateLimiter) := RateLimiter.getCurrentCount t1 rateLimiter in
  let '(remainingCapacity, rateLimiter) := RateLimiter.getRemainingCapacity t2 rateLimiter in
  (mkResponse 200 (JObj [("status", JStr "ok");
                         ("service", JStr "Echo Service");
                         ("port", JNum 4003);
                         ("currentCalls", JNum currentCalls);
                         ("remainingCapacity", JNum remainingCapacity);
                         ("maxCallsPerMinute", JNum 512)]),
   rateLimiter).

End Sink.

(** ** The Caller Service *)

(** [Number.MAX_SAFE_INTEGER] and [Number.isSafeInteger]: the integers on
    which the arithmetic of JavaScript numbers is that of [Z], and which
    [toString] prints digit by digit. *)
Definition MAX_SAFE_INTEGER : Z := 2 ^ 53 - 1.

Definition isSafeInteger (n : Z) : bool :=
  bool_decide (- MAX_SAFE_INTEGER ≤ n ≤ MAX_SAFE_INTEGER).

Module Caller.

Inductive Log : Type :=
  | Calling (callId : Z) (data : string)
  | ReceivedResponse (callId : Z) (data : Json) (duration : Z)
  | Error (callId : Z) (errorMessage : string) (duration : Z).

(** What the service cannot decide itself: how the Throttle Service
    answers each POST as axios shows it, and the clock around each call. *)
Record Env : Type := mkEnv {
  post : Json → PostResult;
  callStartTime : Z → Z;
  callEndTime : Z → Z
}.

(** One call: the body that was posted and the two lines it logged. *)
Record Call : Type := mkCall {
  callData : Json;
  lines : list Log
}.

(** [callId.toString()] *)
Definition toString (callId : Z) : string := pretty callId.

Definition id_of (c : Call) : option Json := field "id" c.(callData).

Definition makeCall (env : Env) (callId : Z) : Call :=
  let callData := JObj [("id", JNum callId); ("data", JStr (toString callId))] in
  let calling := Calling callId (toString callId) in
  let duration := env.(callEndTime) callId - env.(callStartTime) callId in
  match env.(post) callData with
  | Resolved data =>
      mkCall callData [calling; ReceivedResponse callId data duration]
  | Rejected error =>
      let errorMessage := if error.(instanceofError) then error.(message) else "Unknown error" in
      mkCall callData [calling; Error callId errorMessage duration]
  end.

(** [for (let i = 0; i < count; i++) callPromises.push(makeCall(startId + i))],
    with [n] the iterations still to run. *)
Fixpoint loop (env : Env) (n : nat) (i startId : Z) (callPromises : list Call) : list Call :=
  match n with
  | O => callPromises
  | S n =>
      let callId := startId + i in
      loop env n (i + 1) startId (callPromises ++ [makeCall env callId])
  end.

Definition makeCalls (env : Env) (count startId : Z) : list Call :=
  loop env (Z.to_nat count) 0 startId [].

(** What one run of [main] did: the calls of each minute, the waits
    between the minutes and the number logged as [Total calls made]. *)
Record Run : Type := mkRun {
  minutes : list (list Call);
  waits : list Z;
  total : Z
}.

(** [minuteDuration k] is [Date.now() - minutekStart] as [main] measures it. *)
Definition main (env : Env) (minuteDuration : Z → Z) : Run :=
  let callId := 1 in
  let minute1 := makeCalls env 16 callId in
  let callId := callId + 16 in
  let minute1Wait := Z.max 0 (60000 - minuteDuration 1) in
  let minute2 := makeCalls env 256 callId in
  let callId := callId + 256 in
  let minute2Wait := Z.max 0 (60000 - minuteDuration 2) in
  let minute3 := makeCalls env 4096 callId in
  let callId := callId + 4096 in
  let minute3Wait := Z.max 0 (60000 - minuteDuration 3) in
  let minute4 := makeCalls env 65536 callId in
  let callId := callId + 65536 in
  mkRun [minute1; minute2; minute3; minute4]
        [minute1Wait; minute2Wait; minute3Wait]
        (callId - 1).

(** The ids posted in each minute, in the order they were issued. *)
Definition issued (r : Run) : list (list (option Json)) :=
  map (map id_of) r.(minutes).

End Caller.

(** ** The Throttle Service process under Node's event loop

    Node runs one job at a time and a job is never interrupted: control
    changes hands only where the source has an [await].  The jobs of the
    Throttle Service are therefore
    - a request entering [app.post("/forward")], which runs up to
      [await throttler.canForward()] and so chains one callback on
      [this.processing];
    - the oldest chained callback (the promise chain runs them first in,
      first out); its body has no [await];
    - a handler resuming after [await throttler.canForward()], which runs
      up to [await axiosInstance.post(...)] or to its 429 answer;
    - a handler resuming after [await axiosInstance.post(...)];
    - a [GET /health] request.
    Jobs of different requests interleave freely. *)

Module GateLoop.

Record Sys : Type := mkSys {
  throttler : Throttler.t;
  received : gmap nat Json;      (* the body of every request seen, by handler *)
  processing : list nat;         (* callbacks chained and not yet run, oldest first *)
  settled : gmap nat bool;       (* results of [canForward] not yet picked up *)
  posting : gmap nat Json;       (* handlers waiting for the Echo Service *)
  responses : gmap nat Response; (* answers sent to the Caller Service *)
  decisions : list (nat * Z * bool); (* every callback run: handler, clock, result *)
  log : list Gate.Log
}.

Definition init (throttler : Throttler.t) : Sys :=
  mkSys throttler ∅ [] ∅ ∅ ∅ [] [].

Inductive Job : Type :=
  | Request (h : nat) (receivedData : Json)
  | Callback (now : Z)
  | Resume (h : nat) (t2 t3 : Z)
  | PostSettled (h : nat) (result : PostResult)
  | Health (t1 t2 : Z).

(** One job, or [None] when the job cannot run in this state. *)
Definition step (j : Job) (s : Sys) : option Sys :=
  match j with
  | Request h receivedData =>
      match s.(received) !! h with
      | Some _ => None
      | None =>
          Some (mkSys s.(throttler) (<[h := receivedData]> s.(received))
                      (s.(processing) ++ [h]) s.(settled) s.(posting)
                      s.(responses) s.(decisions) s.(log))
      end
  | Callback now =>
      match s.(processing) with
      | [] => None
      | h :: rest =>
          let '(r, throttler) := Throttler.canForward now s.(throttler) in
          Some (mkSys throttler s.(received) rest (<[h := r]> s.(settled)) s.(posting)
                      s.(responses) (s.(decisions) ++ [(h, now, r)]) s.(log))
      end
  | Resume h t2 t3 =>
      match s.(settled) !! h, s.(received) !! h with
      | Some canForward, Some receivedData =>
          let '(next, throttler, lines) :=
            Gate.afterCanForward receivedData canForward t2 t3 s.(throttler) in
          match next with
          | inl res =>
              Some (mkSys throttler s.(received) s.(processing) (delete h s.(settled))
                          s.(posting) (<[h := res]> s.(responses)) s.(decisions)
                          (s.(log) ++ lines))
          | inr data =>
              Some (mkSys throttler s.(received) s.(processing) (delete h s.(settled))
                          (<[h := data]> s.(posting)) s.(responses) s.(decisions)
                          (s.(log) ++ lines))
          end
      | _, _ => None
      end
  | PostSettled h result =>
      match s.(posting) !! h, s.(received) !! h with
      | Some _, Some receivedData =>
          let '(res, lines) := Gate.afterPost receivedData result in
          Some (mkSys s.(throttler) s.(received) s.(processing) s.(settled)
                      (delete h s.(posting)) (<[h := res]> s.(responses)) s.(decisions)
                      (s.(log) ++ lines))
      | _, _ => None
      end
  | Health t1 t2 =>
      let '(_, throttler) := Gate.health t1 t2 s.(throttler) in
      Some (mkSys throttler s.(received) s.(processing) s.(settled) s.(posting)
                  s.(responses) s.(decisions) s.(log))
  end.

Fixpoint exec (js : list Job) (s : Sys) : option Sys :=
  match js with
  | [] => Some s
  | j :: js =>
      match step j s with
      | Some s => exec js s
      | None => None
      end
  end.

(** The clock readings of a job, in the order the job takes them. *)
Definition readings (j : Job) : list Z :=
  match j with
  | Request _ _ | PostSettled _ _ => []
  | Callback now => [now]
  | Resume _ t2 t3 => [t2; t3]
  | Health t1 t2 => [t1; t2]
  end.

(** The timestamps of the callbacks that returned [true]. *)
Definition admitted (s : Sys) : list Z :=
  map (λ d, d.1.2) (filter (λ d, d.2 = true) s.(decisions)).

(** The handlers of the requests among the jobs, in order of arrival. *)
Definition arrivals (js : list Job) : list nat :=
  js ≫= λ j, match j with Request h _ => [h] | _ => [] end.

End GateLoop.

(** ** The Echo Service process: every request is one synchronous job. *)

Module SinkLoop.

Inductive Job : Type :=
  | Echo (receivedData : Json) (t1 t2 t3 : Z)
  | Health (t1 t2 : Z).

Definition step (j : Job) (rateLimiter : RateLimiter.t) : Response * RateLimiter.t :=
  match j with
  | Echo receivedData t1 t2 t3 =>
      let '(res, rateLimiter, _) := Sink.echo receivedData t1 t2 t3 rateLimiter in
      (res, rateLimiter)
  | Health t1 t2 => Sink.health t1 t2 rateLimiter
  end.

Fixpoint exec (js : list Job) (rateLimiter : RateLimiter.t) : list Response * RateLimiter.t :=
  match js with
  | [] => ([], rateLimiter)
  | j :: js =>
      let '(res, rateLimiter) := step j rateLimiter in
      let '(rs, rateLimiter) := exec js rateLimiter in
      (res :: rs, rateLimiter)
  end.

Definition readings (j : Job) : list Z :=
  match j with
  | Echo _ t1 t2 t3 => [t1; t2; t3]
  | Health t1 t2 => [t1; t2]
  end.

End SinkLoop.

(** ** Reachable counters and the vocabulary of the specification *)

(** The counters a Throttle Service with capacity [c] can hold: the fresh
    one, and whatever the three mutating methods make of it, at any clock
    readings. *)
Inductive reachable (c : Z) : Throttler.t → Prop :=
  | reach_new : reachable c (Throttler.mk [] c 0)
  | reach_canForward now th :
      reachable c th → reachable c (Throttler.canForward now th).2
  | reach_getCurrentCount now th :
      reachable c th → reachable c (Throttler.getCurrentCount now th).2
  | reach_getRemainingCapacity now th :
      reachable c th → reachable c (Throttler.getRemainingCapacity now th).2.

Inductive reachable_limiter (c : Z) : RateLimiter.t → Prop :=
  | reachl_new : reachable_limiter c (RateLimiter.mk [] c)
  | reachl_isAllowed now rl :
      reachable_limiter c rl → reachable_limiter c (RateLimiter.isAllowed now rl).2
  | reachl_getCurrentCount now rl :
      reachable_limiter c rl → reachable_limiter c (RateLimiter.getCurrentCount now rl).2
  | reachl_getRemainingCapacity now rl :
      reachable_limiter c rl → reachable_limiter c (RateLimiter.getRemainingCapacity now rl).2.

(** [tryAdmit] read with a closed window [[now - 60000, now]]: timestamps
    equal to the boundary are kept.  Follows the specification's wording,
    to be compared with [Throttler.canForward]. *)
Definition tryAdmit_closed (now : Z) (this : Throttler.t) : bool * Throttler.t :=
  let kept := filter (λ timestamp, now - windowDurationMs ≤ timestamp) this.(Throttler.calls) in
  if bool_decide (Z.of_nat (length kept) < this.(Throttler.maxCallsPerMinute)) then
    (true, Throttler.mk (kept ++ [now]) this.(Throttler.maxCallsPerMinute)
                        this.(Throttler.throttledCount))
  else
    (false, Throttler.mk kept this.(Throttler.maxCallsPerMinute)
                         (this.(Throttler.throttledCount) + 1)).

(** The integers [lo], [lo + 1], ..., [hi]. *)
Definition range (lo hi : Z) : list Z := seqZ lo (hi - lo + 1).

(** What a counter with capacity [c] knows at clock [last] about the
    admissions [adm] made so far: it retains exactly those still in the
    window, and no window ever held more than [c] of them. *)
Definition tracks (c last : Z) (adm cs : list Z) : Prop :=
  cs = prune last adm ∧ Forall (λ a, a ≤ last) adm ∧ ∀ t, windowCount t adm ≤ c.

(** A counter with capacity [c] that is full, and stays full up to clock
    [b]: none of its timestamps leaves the window before then. *)
Definition brimful (c b : Z) (cs : list Z) : Prop :=
  Z.of_nat (length cs) = c ∧ Forall (λ x, b - 60000 < x) cs.

(** How many results of a run are [b]. *)
Definition count_of (b : bool) (rs : list bool) : Z :=
  Z.of_nat (length (filter (λ r, r = b) rs)).

(** ** The first revision of [POST /forward]

    The earlier revision in the same source file: [canForward] is
    synchronous with the same body, the handler reads the count and the
    remaining capacity before it asks [canForward], and the 500 body has no
    [requestId]. *)

Module GateV1.

Inductive Log : Type :=
  | Received (receivedData : Json) (currentCount remainingCapacity : Z)
  | Throttled (throttledCount : Z)
  | Forwarding (receivedData : Json)
  | Forwarded (data : Json)
  | ForwardError (errorMessage : string).

(** [t1], [t2], [t3] are the clock readings of [getCurrentCount],
    [getRemainingCapacity] and [canForward]. *)
Definition forward (receivedData : Json) (t1 t2 t3 : Z) (post : Json → PostResult)
    (throttler : Throttler.t) : Response * Throttler.t * list Log :=
  let '(currentCount, throttler) := Throttler.getCurrentCount t1 throttler in
  let '(remainingCapacity, throttler) := Throttler.getRemainingCapacity t2 throttler in
  let log := [Received receivedData currentCount remainingCapacity] in
  let '(canForward, throttler) := Throttler.canForward t3 throttler in
  if negb canForward then
    let throttledCount := Throttler.getThrottledCount throttler in
    (mkResponse 429 (Gate.throttledBody throttledCount), throttler,
     log ++ [Throttled throttledCount])
  else
    match post receivedData with
    | Resolved data =>
        (mkResponse 200 data, throttler, log ++ [Forwarding receivedData; Forwarded data])
    | Rejected error =>
        (mkResponse 500 (JObj [("error", JStr "Forwarding failed");
                               ("message", JStr (Gate.errorMessage error))]),
         throttler,
         log ++ [Forwarding receivedData; ForwardError (Gate.errorMessage error)])
    end.

End GateV1.

(** ** The two services in a row

    [ECHO_SERVICE_URL] is the Echo Service's [POST /echo].  The Throttle
    Service posts through a keep-alive agent with 50 sockets and its
    handlers run interleaved, so the posts of a burst are under way
    together and reach the Echo Service in any order; the answers travel
    back in any order too.  A post can also end without an answer (the
    5 s timeout of [axiosInstance], a refused connection), whether or
    not the Echo Service gets to handle it.  The jobs of the two
    processes are therefore
    - any job of the Throttle Service except the end of a post;
    - the Echo Service handling one post that is under way, as one
      synchronous job;
    - an answer of the Echo Service reaching the handler that waits for
      it: [await axiosInstance.post(...)] ends as axios settles that
      answer, which is the parameter [settle];
    - a post ending without an answer, with the error axios raises;
    - a [GET /health] request to the Echo Service. *)

Module Cascade.

Record Sys : Type := mkSys {
  gate : GateLoop.Sys;
  rateLimiter : RateLimiter.t;
  inflight : gmap nat Json;      (* posts under way to the Echo Service, by handler *)
  answers : gmap nat Response;   (* answers under way back to the Throttle Service *)
  echoed : list nat;             (* the posts the Echo Service handled, in its order *)
  failed : list nat              (* the posts that ended without an answer *)
}.

Definition init (throttler : Throttler.t) (rateLimiter : RateLimiter.t) : Sys :=
  mkSys (GateLoop.init throttler) rateLimiter ∅ ∅ [] [].

Inductive Job : Type :=
  | Throttle (j : GateLoop.Job)
  | Echo (h : nat) (u1 u2 u3 : Z)
  | Deliver (h : nat)
  | Unanswered (h : nat) (error : Thrown)
  | SinkHealth (u1 u2 : Z).

Definition step (settle : Response → PostResult) (j : Job) (s : Sys) : option Sys :=
  match j with
  | Throttle (GateLoop.PostSettled _ _) => None
  | Throttle (GateLoop.Resume h _ _ as j) =>
      match GateLoop.step j s.(gate) with
      | Some gate =>
          (* the handler went on to [axiosInstance.post]: its body is under way *)
          let inflight :=
            match gate.(GateLoop.posting) !! h with
            | Some data => <[h := data]> s.(inflight)
            | None => s.(inflight)
            end in
          Some (mkSys gate s.(rateLimiter) inflight s.(answers) s.(echoed) s.(failed))
      | None => None
      end
  | Throttle j =>
      match GateLoop.step j s.(gate) with
      | Some gate =>
          Some (mkSys gate s.(rateLimiter) s.(inflight) s.(answers) s.(echoed) s.(failed))
      | None => None
      end
  | Echo h u1 u2 u3 =>
      match s.(inflight) !! h with
      | Some data =>
          let '(answer, rateLimiter, _) := Sink.echo data u1 u2 u3 s.(rateLimiter) in
          Some (mkSys s.(gate) rateLimiter (delete h s.(inflight)) (<[h := answer]> s.(answers))
                      (s.(echoed) ++ [h]) s.(failed))
      | None => None
      end
  | Deliver h =>
      match s.(answers) !! h with
      | Some answer =>
          match GateLoop.step (GateLoop.PostSettled h (settle answer)) s.(gate) with
          | Some gate =>
              Some (mkSys gate s.(rateLimiter) s.(inflight) (delete h s.(answers))
                          s.(echoed) s.(failed))
          | None => None
          end
      | None => None
      end
  | Unanswered h error =>
      match GateLoop.step (GateLoop.PostSettled h (Rejected error)) s.(gate) with
      | Some gate =>
          Some (mkSys gate s.(rateLimiter) s.(inflight) s.(answers) s.(echoed)
                      (s.(failed) ++ [h]))
      | None => None
      end
  | SinkHealth u1 u2 =>
      let '(_, rateLimiter) := Sink.health u1 u2 s.(rateLimiter) in
      Some (mkSys s.(gate) rateLimiter s.(inflight) s.(answers) s.(echoed) s.(failed))
  end.

Fixpoint exec (settle : Response → PostResult) (js : list Job) (s : Sys) : option Sys :=
  match js with
  | [] => Some s
  | j :: js =>
      match step settle j s with
      | Some s => exec settle js s
      | None => None
      end
  end.

Definition readings (j : Job) : list Z :=
  match j with
  | Throttle j => GateLoop.readings j
  | Echo _ u1 u2 u3 => [u1; u2; u3]
  | Deliver _ | Unanswered _ _ => []
  | SinkHealth u1 u2 => [u1; u2]
  end.

(** The handlers of the requests to the Throttle Service, in order of arrival. *)
Definition arrivals (js : list Job) : list nat :=
  js ≫= λ j, match j with Throttle (GateLoop.Request h _) => [h] | _ => [] end.

End Cascade.

(** ** Invariants of the event loop *)

(** Whatever a handler holds is backed by the decision of its callback: a
    settled result, a pending post (of the body as it arrived) and an
    answer each come with the matching entry of [decisions]. *)
Definition backed (s : GateLoop.Sys) : Prop :=
  (∀ h r, s.(GateLoop.settled) !! h = Some r →
     ∃ now, (h, now, r) ∈ s.(GateLoop.decisions)) ∧
  (∀ h data, s.(GateLoop.posting) !! h = Some data →
     s.(GateLoop.received) !! h = Some data ∧
     ∃ now, (h, now, true) ∈ s.(GateLoop.decisions)) ∧
  (∀ h res, s.(GateLoop.responses) !! h = Some res →
     ∃ now, (h, now, bool_decide (res.(status) ≠ 429)) ∈ s.(GateLoop.decisions)).

(** The handlers known to the promise chain, decided ones first. *)
Definition chained (s : GateLoop.Sys) : list nat :=
  map (λ d : nat * Z * bool, d.1.1) s.(GateLoop.decisions) ++ s.(GateLoop.processing).

(** The counters [th] and [thq] decide alike at every clock reading that
    is not earlier than those of [seen]: same capacity, same
    [throttledCount], and the same timestamps but for expired ones. *)
Definition agree (seen : list Z) (th thq : Throttler.t) : Prop :=
  th.(Throttler.maxCallsPerMinute) = thq.(Throttler.maxCallsPerMinute) ∧
  th.(Throttler.throttledCount) = thq.(Throttler.throttledCount) ∧
  ∀ now, Forall (λ t, t ≤ now) seen →
    prune now th.(Throttler.calls) = prune now thq.(Throttler.calls).

(** A Throttle Service of capacity [cg] all of whose callbacks ran in the
    window [(w, w + 60000]]: the first [cg] callbacks admitted and the
    later ones did not. *)
Definition gate_filled (cg w : Z) (s : GateLoop.Sys) : Prop :=
  s.(GateLoop.throttler).(Throttler.maxCallsPerMinute) = cg ∧
  Forall (λ a, w < a ∧ a ≤ w + 60000) s.(GateLoop.throttler).(Throttler.calls) ∧
  Z.of_nat (length s.(GateLoop.throttler).(Throttler.calls))
    = Z.of_nat (length s.(GateLoop.decisions)) `min` cg ∧
  s.(GateLoop.throttler).(Throttler.throttledCount)
    = 0 `max` (Z.of_nat (length s.(GateLoop.decisions)) - cg) ∧
  ∀ (i : nat) d, s.(GateLoop.decisions) !! i = Some d → d.2 = bool_decide (Z.of_nat i < cg).

(** The answer of an Echo Service of capacity [cs] to the post it handles
    as number [k] (from 0) of a window. *)
Definition echo_answer_at (cs : Z) (k : nat) (data : Json) : Response :=
  if bool_decide (Z.of_nat k < cs) then mkResponse 200 data
  else mkResponse 429 (JObj [("message", JStr "Exceeding Limit")]).

(** What the two services hold of one another while every clock reading
    lies in the window [(w, w + 60000]], for an Echo Service of capacity
    [cs]. *)
Definition relayed (cs w : Z) (s : Cascade.Sys) : Prop :=
  backed s.(Cascade.gate) ∧
  s.(Cascade.rateLimiter).(RateLimiter.maxCallsPerMinute) = cs ∧
  Forall (λ a, w < a ∧ a ≤ w + 60000) s.(Cascade.rateLimiter).(RateLimiter.calls) ∧
  Z.of_nat (length s.(Cascade.rateLimiter).(RateLimiter.calls))
    = Z.of_nat (length s.(Cascade.echoed)) `min` cs ∧
  (∀ h data, s.(Cascade.inflight) !! h = Some data →
     s.(Cascade.gate).(GateLoop.received) !! h = Some data ∧
     ∃ now, (h, now, true) ∈ s.(Cascade.gate).(GateLoop.decisions)) ∧
  (∀ h, h ∈ s.(Cascade.echoed) →
     ∃ now, (h, now, true) ∈ s.(Cascade.gate).(GateLoop.decisions)) ∧
  (∀ h answer, s.(Cascade.answers) !! h = Some answer →
     ∃ (k : nat) data, s.(Cascade.echoed) !! k = Some h ∧
       s.(Cascade.gate).(GateLoop.received) !! h = Some data ∧
       answer = echo_answer_at cs k data) ∧
  (∀ h res, s.(Cascade.gate).(GateLoop.responses) !! h = Some res →
     res.(status) ≠ 429 →
     (h ∈ s.(Cascade.failed) ∧ res.(status) = 500) ∨
     (∃ k : nat, s.(Cascade.echoed) !! k = Some h ∧
        if bool_decide (Z.of_nat k < cs)
        then res.(status) = 200 ∧ s.(Cascade.gate).(GateLoop.received) !! h = Some res.(body)
        else res.(status) = 500)).

(** Every handler is at one stage of its life: a post is under way only
    after its handler resumed, and the Echo Service handles it once. *)
Definition staged (s : Cascade.Sys) : Prop :=
  NoDup s.(Cascade.gate).(GateLoop.processing) ∧
  NoDup s.(Cascade.echoed) ∧
  (∀ h, h ∈ s.(Cascade.gate).(GateLoop.processing) →
     is_Some (s.(Cascade.gate).(GateLoop.received) !! h) ∧
     s.(Cascade.gate).(GateLoop.settled) !! h = None) ∧
  (∀ h, is_Some (s.(Cascade.gate).(GateLoop.settled) !! h) →
     is_Some (s.(Cascade.gate).(GateLoop.received) !! h)) ∧
  (∀ h, h ∈ s.(Cascade.echoed) ∨ is_Some (s.(Cascade.inflight) !! h) →
     is_Some (s.(Cascade.gate).(GateLoop.received) !! h) ∧
     (h ∉ s.(Cascade.gate).(GateLoop.processing)) ∧
     s.(Cascade.gate).(GateLoop.settled) !! h = None) ∧
  (∀ h, h ∈ s.(Cascade.echoed) → s.(Cascade.inflight) !! h = None).

(** The body [{ id: callId, data: callId.toString() }] that [makeCall] posts. *)
Definition callBody (callId : Z) : Json :=
  JObj [("id", JNum callId); ("data", JStr (Caller.toString callId))].

(** * Facts about the two counters *)

Section counter_facts.

Implicit Types (now t : Z) (cs ts : list Z) (th : Throttler.t) (rl : RateLimiter.t).

Lemma canForward_eq now th :
  Throttler.canForward now th =
    if bool_decide (Z.of_nat (length (prune now th.(Throttler.calls)))
                    < th.(Throttler.maxCallsPerMinute))
    then (true, Throttler.mk (prune now th.(Throttler.calls) ++ [now])
                             th.(Throttler.maxCallsPerMinute) th.(Throttler.throttledCount))
    else (false, Throttler.mk (prune now th.(Throttler.calls))
                              th.(Throttler.maxCallsPerMinute)
                              (th.(Throttler.throttledCount) + 1)).
Proof. reflexivity. Qed.

Lemma isAllowed_eq now rl :
  RateLimiter.isAllowed now rl =
    if bool_decide (Z.of_nat (length (prune now rl.(RateLimiter.calls)))
                    < rl.(RateLimiter.maxCallsPerMinute))
    then (true, RateLimiter.mk (prune now rl.(RateLimiter.calls) ++ [now])
                               rl.(RateLimiter.maxCallsPerMinute))
    else (false, RateLimiter.mk (prune now rl.(RateLimiter.calls))
                                rl.(RateLimiter.maxCallsPerMinute)).
Proof. reflexivity. Qed.

(** The Echo Service's method is the Throttle Service's, counter forgotten. *)
Lemma isAllowed_forget now th :
  RateLimiter.isAllowed now (forget th) =
    ((Throttler.canForward now th).1, forget (Throttler.canForward now th).2).
Proof.
  rewrite isAllowed_eq, canForward_eq. simpl.
  by destruct (bool_decide _).
Qed.

Lemma run_forget ts th :
  RateLimiter.run ts (forget th) =
    ((Throttler.run ts th).1, forget (Throttler.run ts th).2).
Proof.
  revert th. induction ts as [|now ts IH]; intros th; [done|].
  simpl. rewrite isAllowed_forget.
  destruct (Throttler.canForward now th) as [r th1]. simpl.
  rewrite IH. by destruct (Throttler.run ts th1).
Qed.

Lemma admissions_forget ts th :
  RateLimiter.admissions ts (forget th) = Throttler.admissions ts th.
Proof.
  revert th. induction ts as [|now ts IH]; intros th; [done|].
  simpl. rewrite isAllowed_forget.
  destruct (Throttler.canForward now th) as [r th1]. simpl.
  rewrite IH. done.
Qed.

Lemma prune_elem now cs x : x ∈ prune now cs ↔ x ∈ cs ∧ now - 60000 < x.
Proof.
  unfold prune, windowDurationMs. rewrite list_elem_of_filter.
  split; intros [? ?]; split; first [done | lia].
Qed.

Lemma prune_length now cs : (length (prune now cs) ≤ length cs)%nat.
Proof. apply length_filter. Qed.

Lemma prune_all now cs : Forall (λ x, now - 60000 < x) cs → prune now cs = cs.
Proof.
  induction 1 as [|x cs Hx _ IH]; [done|].
  unfold prune, windowDurationMs in *. rewrite filter_cons.
  destruct (decide _); [by rewrite IH | lia].
Qed.

Lemma prune_prune now1 now2 cs :
  now1 ≤ now2 → prune now2 (prune now1 cs) = prune now2 cs.
Proof.
  intros Hle. unfold prune, windowDurationMs.
  rewrite list_filter_filter. apply list_filter_iff. intros x. lia.
Qed.

Lemma prune_idem now cs : prune now (prune now cs) = prune now cs.
Proof. by apply prune_prune. Qed.

(** A counter never holds more timestamps than its capacity allows. *)
Lemma reachable_bounded c th :
  0 ≤ c → reachable c th →
  th.(Throttler.maxCallsPerMinute) = c ∧ Z.of_nat (length th.(Throttler.calls)) ≤ c.
Proof.
  intros Hc. induction 1 as [|now th _ [IHc IHl]|now th _ [IHc IHl]|now th _ [IHc IHl]].
  - simpl. lia.
  - rewrite canForward_eq. pose proof (prune_length now th.(Throttler.calls)).
    case_bool_decide; simpl; [rewrite length_app; simpl|]; lia.
  - simpl. split; [done|]. pose proof (length_filter (λ x, x > now - 60000) th.(Throttler.calls)). lia.
  - simpl. split; [done|]. pose proof (length_filter (λ x, x > now - 60000) th.(Throttler.calls)). lia.
Qed.

Lemma reachable_limiter_bounded c rl :
  0 ≤ c → reachable_limiter c rl →
  rl.(RateLimiter.maxCallsPerMinute) = c ∧ Z.of_nat (length rl.(RateLimiter.calls)) ≤ c.
Proof.
  intros Hc. induction 1 as [|now rl _ [IHc IHl]|now rl _ [IHc IHl]|now rl _ [IHc IHl]].
  - simpl. lia.
  - rewrite isAllowed_eq. pose proof (prune_length now rl.(RateLimiter.calls)).
    case_bool_decide; simpl; [rewrite length_app; simpl|]; lia.
  - simpl. split; [done|]. pose proof (length_filter (λ x, x > now - 60000) rl.(RateLimiter.calls)). lia.
  - simpl. split; [done|]. pose proof (length_filter (λ x, x > now - 60000) rl.(RateLimiter.calls)). lia.
Qed.

Lemma run_reachable c ts th : reachable c th → reachable c (Throttler.run ts th).2.
Proof.
  revert th. induction ts as [|now ts IH]; intros th Hth; [done|].
  simpl. pose proof (reach_canForward c now th Hth) as H1.
  destruct (Throttler.canForward now th) as [r th1]. simpl in H1.
  specialize (IH th1 H1). by destruct (Throttler.run ts th1).
Qed.

(** When nothing can be pruned, a full counter is left as it is. *)
Lemma prune_full now cs (c : Z) :
  Z.of_nat (length cs) ≤ c → ¬ Z.of_nat (length (prune now cs)) < c → prune now cs = cs.
Proof.
  intros Hle Hfull. apply prune_all. apply Forall_forall. intros x Hx.
  destruct (decide (now - 60000 < x)) as [|Hold]; [done|].
  assert (length (prune now cs) < length cs)%nat; [|lia].
  unfold prune, windowDurationMs. eapply length_filter_lt; [done|]. simpl. lia.
Qed.

End counter_facts.

(** * Windows of admissions *)

Section windows.

Implicit Types (now t last : Z) (cs ts adm : list Z).

Lemma filter_length_mono (P Q : Z → Prop) `{!∀ x, Decision (P x), !∀ x, Decision (Q x)} cs :
  (∀ x, P x → Q x) → (length (filter P cs) ≤ length (filter Q cs))%nat.
Proof.
  intros HPQ. induction cs as [|x cs IH]; [done|].
  rewrite !filter_cons.
  destruct (decide (P x)) as [HP|HP], (decide (Q x)) as [HQ|HQ]; simpl; try lia.
  by destruct HQ; apply HPQ.
Qed.

Lemma windowCount_le_length t cs : windowCount t cs ≤ Z.of_nat (length cs).
Proof. unfold windowCount. pose proof (length_filter (λ a, t - windowDurationMs < a ∧ a ≤ t) cs). lia. Qed.

Lemma windowCount_le_prune now t cs :
  now ≤ t → windowCount t cs ≤ Z.of_nat (length (prune now cs)).
Proof.
  intros Hle. unfold windowCount, prune, windowDurationMs.
  apply inj_le, filter_length_mono. intros x. lia.
Qed.

Lemma windowCount_snoc_old t now cs :
  t < now → windowCount t (cs ++ [now]) = windowCount t cs.
Proof.
  intros Hlt. unfold windowCount. rewrite filter_app, filter_cons_False by lia.
  by rewrite filter_nil, app_nil_r.
Qed.

Lemma prune_snoc now cs : prune now (cs ++ [now]) = prune now cs ++ [now].
Proof.
  unfold prune, windowDurationMs. rewrite filter_app, filter_cons_True by lia. done.
Qed.

Lemma tracks_empty c last : 0 ≤ c → tracks c last [] [].
Proof. intros Hc. split; [done|]. split; [constructor|]. intros t. by unfold windowCount. Qed.

Lemma tracks_prune c last now adm cs :
  last ≤ now → tracks c last adm cs → tracks c now adm (prune now cs).
Proof.
  intros Hle (-> & Hadm & Hwin). split; [by apply prune_prune|].
  split; [|done]. eapply Forall_impl; [done|]. simpl. lia.
Qed.

Lemma tracks_admit c last now adm cs :
  last ≤ now → tracks c last adm cs →
  Z.of_nat (length (prune now cs)) < c →
  tracks c now (adm ++ [now]) (prune now cs ++ [now]).
Proof.
  intros Hle Htr Hroom.
  destruct (tracks_prune c last now adm cs Hle Htr) as (Hcs & Hadm & Hwin).
  split; [by rewrite prune_snoc, <-Hcs|].
  split; [apply Forall_app; split; [done|by repeat constructor]|].
  intros t. destruct (decide (t < now)) as [Hold|Hnew].
  - by rewrite windowCount_snoc_old.
  - etrans; [apply (windowCount_le_prune now); lia|].
    rewrite prune_snoc, <-Hcs, length_app. simpl. lia.
Qed.

Lemma prune_windowCount last adm :
  Forall (λ a, a ≤ last) adm → Z.of_nat (length (prune last adm)) = windowCount last adm.
Proof.
  unfold windowCount, prune, windowDurationMs.
  induction 1 as [|x adm Hx _ IH]; [done|].
  rewrite !filter_cons.
  destruct (decide (x > last - 60000)), (decide (last - 60000 < x ∧ x ≤ last));
    simpl; lia.
Qed.

Lemma tracks_length c last adm cs : tracks c last adm cs → Z.of_nat (length cs) ≤ c.
Proof. intros (-> & Hadm & Hwin). rewrite prune_windowCount by done. apply Hwin. Qed.

(** One step of a run keeps the counter in step with its admissions. *)
Lemma admissions_window c ts : ∀ th past last,
  th.(Throttler.maxCallsPerMinute) = c →
  tracks c last past th.(Throttler.calls) →
  Sorted Z.le (last :: ts) →
  ∀ t, windowCount t (past ++ Throttler.admissions ts th) ≤ c.
Proof.
  induction ts as [|now ts IH]; intros th past last Hc Htr Hsorted t.
  { simpl. rewrite app_nil_r. by destruct Htr as (_ & _ & Hwin). }
  apply Sorted_inv in Hsorted as [Hsorted Hhd]. apply HdRel_inv in Hhd.
  simpl. rewrite canForward_eq, Hc. case_bool_decide as Hroom.
  - replace (past ++ now :: Throttler.admissions ts _)
      with ((past ++ [now]) ++ Throttler.admissions ts
              (Throttler.mk (prune now th.(Throttler.calls) ++ [now]) c
                            th.(Throttler.throttledCount)))
      by (by rewrite <-app_assoc).
    apply (IH _ _ now); [done| |done]. simpl. by eapply tracks_admit.
  - apply (IH _ _ now); [done| |done]. simpl. by eapply tracks_prune.
Qed.

End windows.

(** * The sliding-window counter: admission, rejection, capacity *)

Section runs.

Implicit Types (now t : Z) (cs ts : list Z) (th : Throttler.t) (rl : RateLimiter.t).

Lemma admit_bounded now th th' :
  Throttler.canForward now th = (true, th') →
  th'.(Throttler.maxCallsPerMinute) = th.(Throttler.maxCallsPerMinute) ∧
  Z.of_nat (length th'.(Throttler.calls)) ≤ th.(Throttler.maxCallsPerMinute).
Proof.
  rewrite canForward_eq. case_bool_decide; intros [= <-]; simpl.
  rewrite length_app. simpl. lia.
Qed.

Lemma count_of_replicate (b : bool) (n m : nat) :
  count_of b (replicate n b ++ replicate m (negb b)) = Z.of_nat n.
Proof.
  unfold count_of. rewrite filter_app, length_app.
  assert (filter (λ r, r = b) (replicate n b) = replicate n b) as ->.
  { induction n as [|n IH]; [done|]. simpl. rewrite filter_cons_True by done. by rewrite IH. }
  assert (filter (λ r, r = b) (replicate m (negb b)) = []) as ->.
  { induction m as [|m IH]; [done|]. simpl. rewrite filter_cons_False; [done|by destruct b]. }
  rewrite length_replicate. simpl. lia.
Qed.

Lemma count_of_false_replicate (n m : nat) :
  count_of false (replicate n true ++ replicate m false) = Z.of_nat m.
Proof.
  unfold count_of. rewrite filter_app, length_app.
  assert (filter (λ r, r = false) (replicate n true) = []) as ->.
  { induction n as [|n IH]; [done|]. simpl. by rewrite filter_cons_False. }
  assert (filter (λ r, r = false) (replicate m false) = replicate m false) as ->.
  { induction m as [|m IH]; [done|]. simpl. rewrite filter_cons_True by done. by rewrite IH. }
  rewrite length_replicate. simpl. lia.
Qed.

(** In one window nothing expires: the free slots are handed out in
    order, and every later call is turned away. *)
Lemma run_one_window w ts : ∀ th,
  Forall (λ a, w < a ∧ a ≤ w + windowDurationMs) (th.(Throttler.calls) ++ ts) →
  let free := Z.to_nat (th.(Throttler.maxCallsPerMinute)
                        - Z.of_nat (length th.(Throttler.calls))) in
  (Throttler.run ts th).1 =
    replicate (free `min` length ts) true ++ replicate (length ts - free) false ∧
  (Throttler.run ts th).2.(Throttler.throttledCount) =
    th.(Throttler.throttledCount) + Z.of_nat (length ts - free).
Proof.
  unfold windowDurationMs.
  induction ts as [|now ts IH]; intros th Hwin; simpl.
  { rewrite Nat.min_0_r. simpl. split; [done|lia]. }
  assert (prune now th.(Throttler.calls) = th.(Throttler.calls)) as Hkeep.
  { apply prune_all. apply Forall_app in Hwin as [Hcs Hts].
    apply Forall_cons in Hts as [Hnow _].
    eapply Forall_impl; [exact Hcs|]. simpl. lia. }
  rewrite canForward_eq, Hkeep. case_bool_decide as Hroom.
  - specialize (IH (Throttler.mk (th.(Throttler.calls) ++ [now])
                                 th.(Throttler.maxCallsPerMinute)
                                 th.(Throttler.throttledCount))).
    simpl in IH. rewrite <-app_assoc in IH. specialize (IH Hwin).
    destruct (Throttler.run ts _) as [rs th1]. simpl in *.
    destruct IH as [-> ->]. rewrite length_app. simpl.
    set (cap := th.(Throttler.maxCallsPerMinute)) in *.
    set (k := length th.(Throttler.calls)) in *.
    replace (Z.to_nat (cap - Z.of_nat k)) with (S (Z.to_nat (cap - Z.of_nat (k + 1)))) by lia.
    simpl. split; [done|lia].
  - specialize (IH (Throttler.mk th.(Throttler.calls) th.(Throttler.maxCallsPerMinute)
                                 (th.(Throttler.throttledCount) + 1))).
    simpl in IH.
    assert (Forall (λ a, w < a ∧ a ≤ w + 60000) (th.(Throttler.calls) ++ ts)) as Hwin'.
    { apply Forall_app in Hwin as [Hcs Hts]. apply Forall_cons in Hts as [_ Hts].
      by apply Forall_app. }
    specialize (IH Hwin').
    destruct (Throttler.run ts _) as [rs th1]. simpl in *.
    destruct IH as [-> ->].
    set (cap := th.(Throttler.maxCallsPerMinute)) in *.
    set (k := length th.(Throttler.calls)) in *.
    replace (Z.to_nat (cap - Z.of_nat k)) with O by lia.
    simpl. rewrite Nat.sub_0_r. split; [done|lia].
Qed.

End runs.

(** C1.  For every capacity [c] and every [N >= 0]: starting from the
    empty counter, [c + N] calls of [canForward] whose clock readings all
    lie in one 60-second window return [true] exactly [c] times (the first
    [c] calls) and [false] exactly [N] times, and [throttledCount] ends at
    [N].  The Echo Service's [isAllowed] returns the same results. *)
Theorem exact_admissions (c N : Z) (ts : list Z) :
  0 ≤ c → 0 ≤ N → Z.of_nat (length ts) = c + N → within_one_window ts →
  (Throttler.run ts (Throttler.mk [] c 0)).1 =
    replicate (Z.to_nat c) true ++ replicate (Z.to_nat N) false ∧
  count_of true (Throttler.run ts (Throttler.mk [] c 0)).1 = c ∧
  count_of false (Throttler.run ts (Throttler.mk [] c 0)).1 = N ∧
  (Throttler.run ts (Throttler.mk [] c 0)).2.(Throttler.throttledCount) = N ∧
  (RateLimiter.run ts (RateLimiter.mk [] c)).1 = (Throttler.run ts (Throttler.mk [] c 0)).1.
Proof.
  intros Hc HN Hlen [w Hwin].
  destruct (run_one_window w ts (Throttler.mk [] c 0)) as [Hrs Htc]; [done|].
  simpl in Hrs, Htc.
  replace (Z.to_nat (c - Z.of_nat 0) `min` length ts)%nat with (Z.to_nat c) in Hrs by lia.
  replace (length ts - Z.to_nat (c - Z.of_nat 0))%nat with (Z.to_nat N) in Hrs, Htc by lia.
  rewrite Hrs, Htc. split; [done|].
  split; [rewrite (count_of_replicate true); lia|].
  split; [rewrite count_of_false_replicate; lia|].
  split; [lia|].
  change (RateLimiter.mk [] c) with (forget (Throttler.mk [] c 0)).
  rewrite run_forget. simpl. by rewrite Hrs.
Qed.

Lemma exact_admissions_witness :
  (Throttler.run [5; 5; 6; 7; 60004] (Throttler.mk [] 3 0)).1 = [true; true; true; false; false] ∧
  (Throttler.run [5; 5; 6; 7; 60004] (Throttler.mk [] 3 0)).2.(Throttler.throttledCount) = 2.
Proof.
  assert (within_one_window [5; 5; 6; 7; 60004]) as Hwin.
  { exists 4. unfold windowDurationMs. repeat constructor; lia. }
  destruct (exact_admissions 3 2 [5; 5; 6; 7; 60004]) as (H1 & _ & _ & H2 & _);
    [lia | lia | reflexivity | exact Hwin |].
  split; [exact H1 | exact H2].
Defined.

(** C2.  For every sequence of [canForward] calls with non-decreasing
    clock readings, starting from the empty counter: right after each call
    that returns [true] the retained timestamps inside the trailing window
    [(now - 60000, now]] number at most the capacity; and at every instant
    [t] the admissions inside [(t - 60000, t]] number at most the capacity.
    The same holds of [isAllowed]. *)
Theorem window_correctness (c : Z) (ts : list Z) :
  0 ≤ c → Sorted Z.le ts →
  (∀ ts1 now ts2 th', ts = ts1 ++ now :: ts2 →
     Throttler.canForward now (Throttler.run ts1 (Throttler.mk [] c 0)).2 = (true, th') →
     windowCount now th'.(Throttler.calls) ≤ c) ∧
  (∀ t, windowCount t (Throttler.admissions ts (Throttler.mk [] c 0)) ≤ c) ∧
  (∀ ts1 now ts2 rl', ts = ts1 ++ now :: ts2 →
     RateLimiter.isAllowed now (RateLimiter.run ts1 (RateLimiter.mk [] c)).2 = (true, rl') →
     windowCount now rl'.(RateLimiter.calls) ≤ c) ∧
  (∀ t, windowCount t (RateLimiter.admissions ts (RateLimiter.mk [] c)) ≤ c).
Proof.
  intros Hc Hsorted.
  assert (∀ ts1 now th', 
    Throttler.canForward now (Throttler.run ts1 (Throttler.mk [] c 0)).2 = (true, th') →
    windowCount now th'.(Throttler.calls) ≤ c) as Hafter.
  { intros ts1 now th' Hadm. apply admit_bounded in Hadm as [_ Hlen].
    destruct (reachable_bounded c (Throttler.run ts1 (Throttler.mk [] c 0)).2 Hc) as [Hcap _].
    { apply run_reachable, reach_new. }
    rewrite Hcap in Hlen. etrans; [apply windowCount_le_length|done]. }
  assert (∀ t, windowCount t (Throttler.admissions ts (Throttler.mk [] c 0)) ≤ c) as Hany.
  { intros t. destruct ts as [|now ts]; [by unfold windowCount|].
    apply (admissions_window c (now :: ts) (Throttler.mk [] c 0) [] now); [done| |].
    - by apply tracks_empty.
    - constructor; [done|]. by constructor. }
  split; [by eauto|]. split; [done|].
  change (RateLimiter.mk [] c) with (forget (Throttler.mk [] c 0)).
  split.
  - intros ts1 now ts2 rl' _. rewrite run_forget. simpl. rewrite isAllowed_forget.
    intros [= Hr <-].
    destruct (Throttler.canForward now _) as [r th'] eqn:Hcf. simpl in *. subst r.
    by eapply Hafter.
  - intros t. by rewrite admissions_forget.
Qed.

Lemma window_correctness_witness :
  windowCount 60004 (Throttler.admissions [0; 1; 2; 60000; 60004] (Throttler.mk [] 2 0)) ≤ 2.
Proof.
  assert (Sorted Z.le [0; 1; 2; 60000; 60004]) as Hsorted.
  { repeat constructor; lia. }
  destruct (window_correctness 2 [0; 1; 2; 60000; 60004]) as (_ & H & _);
    [lia | exact Hsorted |].
  exact (H 60004).
Defined.

(** C3, as stated, fails on the code: a retained timestamp equal to the
    boundary [now - 60000] is discarded, not kept.  After one admission at
    clock 0, the call at clock 60000 leaves [[60000]], where the closed
    window of the claim would leave [[0; 60000]]. *)
Lemma tryAdmit_boundary_discarded :
  (Throttler.canForward 0 Throttler.new).2.(Throttler.calls) = [0] ∧
  (Throttler.canForward 60000 (Throttler.canForward 0 Throttler.new).2).2.(Throttler.calls)
    = [60000] ∧
  (tryAdmit_closed 60000 (Throttler.canForward 0 Throttler.new).2).2.(Throttler.calls)
    = [0; 60000] ∧
  Throttler.canForward 60000 (Throttler.canForward 0 Throttler.new).2
    ≠ tryAdmit_closed 60000 (Throttler.canForward 0 Throttler.new).2.
Proof. vm_compute. repeat split; try reflexivity. discriminate. Qed.

(** C3, amended.  For every counter state and every clock reading [now],
    [canForward] keeps exactly the retained timestamps strictly newer than
    [now - 60000] (in their order) and discards those equal to or older
    than that boundary; when fewer than [maxCallsPerMinute] remain it
    appends [now] and returns [true], otherwise it adds one to
    [throttledCount] and returns [false].  [isAllowed] does the same on the
    Echo Service's counter, which has no rejection counter to increment. *)
Theorem tryAdmit_effect (now : Z) (th : Throttler.t) (rl : RateLimiter.t) :
  let kept := filter (λ timestamp, now - 60000 < timestamp) th.(Throttler.calls) in
  let kept' := filter (λ timestamp, now - 60000 < timestamp) rl.(RateLimiter.calls) in
  (∀ x, x ∈ th.(Throttler.calls) → (x ∈ kept ↔ ¬ x ≤ now - 60000)) ∧
  Throttler.canForward now th =
    (if bool_decide (Z.of_nat (length kept) < th.(Throttler.maxCallsPerMinute))
     then (true, Throttler.mk (kept ++ [now]) th.(Throttler.maxCallsPerMinute)
                              th.(Throttler.throttledCount))
     else (false, Throttler.mk kept th.(Throttler.maxCallsPerMinute)
                               (th.(Throttler.throttledCount) + 1))) ∧
  RateLimiter.isAllowed now rl =
    (if bool_decide (Z.of_nat (length kept') < rl.(RateLimiter.maxCallsPerMinute))
     then (true, RateLimiter.mk (kept' ++ [now]) rl.(RateLimiter.maxCallsPerMinute))
     else (false, RateLimiter.mk kept' rl.(RateLimiter.maxCallsPerMinute))).
Proof.
  intros kept kept'.
  assert (∀ cs, filter (λ timestamp, now - 60000 < timestamp) cs = prune now cs) as Hprune.
  { intros cs. apply list_filter_iff. intros x. unfold windowDurationMs. lia. }
  subst kept kept'. rewrite !Hprune. split; [|split].
  - intros x Hx. rewrite prune_elem. split; [lia|]. intros. split; [done|lia].
  - apply canForward_eq.
  - apply isAllowed_eq.
Qed.

(** C7.  Whenever [canForward] returns [false]: nothing is appended, the
    retained timestamps inside the trailing window are the same before and
    after, [throttledCount] grows by one and the capacity is untouched; and
    in every state the service can reach the array of timestamps is not
    changed at all, so the counter is the only thing that moves. *)
Theorem rejection_frame (now : Z) (th th' : Throttler.t) :
  Throttler.canForward now th = (false, th') →
  prune now th'.(Throttler.calls) = prune now th.(Throttler.calls) ∧
  th'.(Throttler.calls) = prune now th.(Throttler.calls) ∧
  th'.(Throttler.throttledCount) = th.(Throttler.throttledCount) + 1 ∧
  th'.(Throttler.maxCallsPerMinute) = th.(Throttler.maxCallsPerMinute) ∧
  (∀ c, 0 ≤ c → reachable c th →
     th' = Throttler.set_throttledCount (th.(Throttler.throttledCount) + 1) th).
Proof.
  rewrite canForward_eq. case_bool_decide as Hfull; intros [= <-]; simpl.
  split; [apply prune_idem|]. do 3 (split; [done|]).
  intros c Hc Hreach. destruct (reachable_bounded c th Hc Hreach) as [Hcap Hlen].
  unfold Throttler.set_throttledCount. f_equal.
  apply (prune_full now _ c); [done|]. by rewrite <-Hcap.
Qed.

Lemma rejection_frame_witness :
  (Throttler.canForward 9 (Throttler.mk [3; 4] 2 0)).2 = Throttler.mk [3; 4] 2 1.
Proof.
  assert (reachable 2 (Throttler.mk [3; 4] 2 0)) as Hreach.
  { exact (reach_canForward 2 4 _ (reach_canForward 2 3 _ (reach_new 2))). }
  destruct (rejection_frame 9 (Throttler.mk [3; 4] 2 0) (Throttler.canForward 9 (Throttler.mk [3; 4] 2 0)).2)
    as (_ & _ & _ & _ & H); [reflexivity|].
  exact (H 2 ltac:(lia) Hreach).
Defined.

(** X9.  The Echo Service's counter has nothing to count a rejection with: in
    a reachable state a rejected [isAllowed] changes nothing. *)
Lemma rejection_frame_limiter (c now : Z) (rl rl' : RateLimiter.t) :
  0 ≤ c → reachable_limiter c rl → RateLimiter.isAllowed now rl = (false, rl') → rl' = rl.
Proof.
  intros Hc Hreach. destruct (reachable_limiter_bounded c rl Hc Hreach) as [Hcap Hlen].
  rewrite isAllowed_eq. case_bool_decide as Hfull; intros [= <-].
  destruct rl as [cs cap]. simpl in *. f_equal.
  apply (prune_full now _ c); [done|]. by rewrite <-Hcap.
Qed.

(** C10.  In every state reached from the empty counter by [canForward]
    calls (at any clock readings, non-decreasing or not) and for every
    query time [now], [getRemainingCapacity] returns the capacity minus
    what [getCurrentCount] returns, and that is never negative: the
    [Math.max(0, ...)] never cuts anything off.  Likewise for the Echo
    Service's counter. *)
Theorem remaining_capacity_exact (c : Z) (ts : list Z) (now : Z) :
  0 ≤ c →
  let th := (Throttler.run ts (Throttler.mk [] c 0)).2 in
  let rl := (RateLimiter.run ts (RateLimiter.mk [] c)).2 in
  (Throttler.getRemainingCapacity now th).1 = c - (Throttler.getCurrentCount now th).1 ∧
  0 ≤ c - (Throttler.getCurrentCount now th).1 ∧
  (RateLimiter.getRemainingCapacity now rl).1 = c - (RateLimiter.getCurrentCount now rl).1 ∧
  0 ≤ c - (RateLimiter.getCurrentCount now rl).1.
Proof.
  intros Hc th rl.
  assert (rl = forget th) as ->.
  { subst th rl. change (RateLimiter.mk [] c) with (forget (Throttler.mk [] c 0)).
    by rewrite run_forget. }
  destruct (reachable_bounded c th Hc) as [Hcap Hlen].
  { apply run_reachable, reach_new. }
  pose proof (length_filter (λ timestamp, timestamp > now - 60000) th.(Throttler.calls)) as Hf.
  unfold Throttler.getRemainingCapacity, RateLimiter.getRemainingCapacity. simpl.
  rewrite Hcap. lia.
Qed.

Lemma remaining_capacity_exact_witness :
  (Throttler.getRemainingCapacity 60001
     (Throttler.run [0; 1; 2; 3] (Throttler.mk [] 3 0)).2).1 = 3 - 1.
Proof.
  destruct (remaining_capacity_exact 3 [0; 1; 2; 3] 60001) as (H & _); [lia|].
  exact H.
Defined.

(** The same holds after any mix of the mutating methods. *)
Lemma remaining_capacity_reachable (c now : Z) (th : Throttler.t) :
  0 ≤ c → reachable c th →
  (Throttler.getRemainingCapacity now th).1 = c - (Throttler.getCurrentCount now th).1 ∧
  0 ≤ (Throttler.getRemainingCapacity now th).1.
Proof.
  intros Hc Hreach. destruct (reachable_bounded c th Hc Hreach) as [Hcap Hlen].
  pose proof (length_filter (λ timestamp, timestamp > now - 60000) th.(Throttler.calls)) as Hf.
  unfold Throttler.getRemainingCapacity. simpl. rewrite Hcap. lia.
Qed.

(** * The HTTP handlers *)

Lemma echo_answer (receivedData : Json) (t1 t2 t3 : Z) (rateLimiter : RateLimiter.t) :
  (Sink.echo receivedData t1 t2 t3 rateLimiter).1 =
    let decision := RateLimiter.isAllowed t3
                      (RateLimiter.getRemainingCapacity t2
                         (RateLimiter.getCurrentCount t1 rateLimiter).2).2 in
    (if decision.1 then mkResponse 200 receivedData
     else mkResponse 429 (JObj [("message", JStr "Exceeding Limit")]),
     decision.2).
Proof.
  unfold Sink.echo. simpl.
  destruct (RateLimiter.isAllowed t3 _) as [[] rl']; done.
Qed.

(** C8.  [POST /echo]: when the counter admits the request the answer is
    200 with the received body as it came; when it rejects, the answer is
    429 with [{message: "Exceeding Limit"}].  The counter decides at [t3],
    after the two reads that the handler logs. *)
Theorem echo_contract (receivedData : Json) (t1 t2 t3 : Z) (rateLimiter : RateLimiter.t) :
  let seen := (RateLimiter.getRemainingCapacity t2
                 (RateLimiter.getCurrentCount t1 rateLimiter).2).2 in
  (Sink.echo receivedData t1 t2 t3 rateLimiter).1.1 =
    (if (RateLimiter.isAllowed t3 seen).1
     then mkResponse 200 receivedData
     else mkResponse 429 (JObj [("message", JStr "Exceeding Limit")])) ∧
  (Sink.echo receivedData t1 t2 t3 rateLimiter).1.2 = (RateLimiter.isAllowed t3 seen).2.
Proof.
  intros seen. subst seen. by rewrite echo_answer.
Qed.

(** With a clock that does not run backwards the two logged reads do not
    change the decision. *)
Lemma echo_decision (t1 t2 t3 : Z) (rateLimiter : RateLimiter.t) :
  t1 ≤ t3 → t2 ≤ t3 →
  RateLimiter.isAllowed t3 (RateLimiter.getRemainingCapacity t2
                              (RateLimiter.getCurrentCount t1 rateLimiter).2).2
  = RateLimiter.isAllowed t3 rateLimiter.
Proof.
  intros H1 H2. rewrite !isAllowed_eq. simpl.
  change (filter (λ timestamp, timestamp > t2 - 60000)
            (filter (λ timestamp, timestamp > t1 - 60000) rateLimiter.(RateLimiter.calls)))
    with (prune t2 (prune t1 rateLimiter.(RateLimiter.calls))).
  by rewrite !prune_prune.
Qed.

(** The three answers of [POST /forward]: 429 [Throttled] when its own
    counter rejects, 200 with the Echo Service's body when the forward
    succeeds, and 500 [Forwarding failed] with the message of the error
    when the forward fails in any way.  Two failed forwards of one request
    get equal answers exactly when the two error messages are equal; the
    service's log line also records the status of the error. *)
Lemma forward_outcomes (receivedData : Json) (t1 t2 t3 : Z) (post : Json → PostResult)
    (throttler : Throttler.t) (overloaded silent : Thrown) :
  (Gate.forward receivedData t1 t2 t3 post throttler).1.1 =
    match (Throttler.canForward t1 throttler).1, post receivedData with
    | false, _ =>
        mkResponse 429
          (JObj [("error", JStr "Throttled");
                 ("message", JStr "Request rate exceeds 4,096 calls per minute");
                 ("throttledCount",
                  JNum (Throttler.canForward t1 throttler).2.(Throttler.throttledCount))])
    | true, Resolved data => mkResponse 200 data
    | true, Rejected error =>
        mkResponse 500
          (JObj [("error", JStr "Forwarding failed");
                 ("message", JStr (Gate.errorMessage error));
                 ("requestId", Gate.requestId receivedData)])
    end ∧
  ((Gate.afterPost receivedData (Rejected overloaded)).1
     = (Gate.afterPost receivedData (Rejected silent)).1
   ↔ Gate.errorMessage overloaded = Gate.errorMessage silent) ∧
  (Gate.afterPost receivedData (Rejected overloaded)).2 =
    [Gate.ForwardError (Gate.requestId receivedData) (Gate.errorMessage overloaded)
       (if overloaded.(isAxiosError) then overloaded.(response) else None)].
Proof.
  split; [|split].
  - unfold Gate.forward, Gate.afterCanForward. simpl.
    destruct (Throttler.canForward t1 throttler) as [[] th']; simpl; [|done].
    by destruct (post receivedData).
  - simpl. unfold Gate.failedBody. split; [intros [= ->]; done|intros ->; done].
  - done.
Qed.

(** A status message starts with the words that no other message of
    axios starts with. *)
Lemma statusMessage_prefix (status : Z) :
  String.prefix "Request failed with status code " (statusMessage status) = true.
Proof.
  unfold statusMessage. generalize (pretty status).
  induction "Request failed with status code "%string as [|a p IH]; intros s.
  - by destruct s.
  - simpl. by destruct (Ascii.ascii_dec a a).
Qed.

Lemma axiosError_answered (error : Thrown) (status : Z) :
  axiosError error = true → error.(response) = Some status →
  Gate.errorMessage error = statusMessage status ∧ Gate.statusCode error = Some status.
Proof.
  unfold axiosError, Gate.errorMessage, Gate.statusCode. intros Herror Hresponse.
  rewrite Hresponse in Herror |- *.
  destruct error.(instanceofError), error.(isAxiosError); try done.
  simpl in Herror. by apply bool_decide_eq_true in Herror.
Qed.

Lemma axiosError_unanswered (error : Thrown) (status : Z) :
  axiosError error = true → error.(response) = None →
  Gate.errorMessage error = error.(message) ∧ Gate.statusCode error = None ∧
  error.(message) ≠ statusMessage status.
Proof.
  unfold axiosError, Gate.errorMessage, Gate.statusCode. intros Herror Hresponse.
  rewrite Hresponse in Herror |- *.
  destruct error.(instanceofError), error.(isAxiosError); try done.
  simpl in Herror. do 2 (split; [done|]). intros Heq.
  rewrite Heq, statusMessage_prefix in Herror. done.
Qed.

(** C5.  The caller of [POST /forward] can tell the three failures apart.
    The Throttle Service answers its own capacity rejection with 429, and
    every failed forward with 500 [Forwarding failed], which is never
    mistaken for the 429.  Within the failed forwards, with the errors as
    axios raises them, an overloaded Echo Service (it answered 429 to
    [POST /echo]) and one that did not answer (unreachable, timed out)
    never get the same answer: the 500 body carries the message
    ["Request failed with status code 429"] for the first and the message
    of the transport error for the second, and the log line of the
    Throttle Service records the status 429 against none. *)
Theorem failures_told_apart (receivedData : Json) (t1 t2 t3 u1 u2 u3 : Z)
    (post : Json → PostResult) (throttler : Throttler.t) (rateLimiter : RateLimiter.t)
    (overloaded silent : Thrown) :
  (Sink.echo receivedData u1 u2 u3 rateLimiter).1.1.(status) ≠ 200 →
  axiosError overloaded = true →
  overloaded.(response) = Some (Sink.echo receivedData u1 u2 u3 rateLimiter).1.1.(status) →
  axiosError silent = true →
  silent.(response) = None →
  ((Throttler.canForward t1 throttler).1 = false →
     (Gate.forward receivedData t1 t2 t3 post throttler).1.1.(status) = 429) ∧
  ((Throttler.canForward t1 throttler).1 = true →
     let sinkFull := Gate.forward receivedData t1 t2 t3 (λ _, Rejected overloaded) throttler in
     let sinkSilent := Gate.forward receivedData t1 t2 t3 (λ _, Rejected silent) throttler in
     sinkFull.1.1.(status) = 500 ∧
     sinkSilent.1.1.(status) = 500 ∧
     field "error" sinkFull.1.1.(body) = Some (JStr "Forwarding failed") ∧
     field "error" sinkSilent.1.1.(body) = Some (JStr "Forwarding failed") ∧
     field "message" sinkFull.1.1.(body) = Some (JStr "Request failed with status code 429") ∧
     field "message" sinkSilent.1.1.(body) = Some (JStr silent.(message)) ∧
     silent.(message) ≠ "Request failed with status code 429" ∧
     sinkFull.1.1 ≠ sinkSilent.1.1 ∧
     last sinkFull.2 = Some (Gate.ForwardError (Gate.requestId receivedData)
                               "Request failed with status code 429" (Some 429)) ∧
     last sinkSilent.2 = Some (Gate.ForwardError (Gate.requestId receivedData)
                                 silent.(message) None)).
Proof.
  intros Hrejected Hoverloaded Hanswer Hsilent Hnone.
  assert ((Sink.echo receivedData u1 u2 u3 rateLimiter).1.1.(status) = 429) as Hstatus.
  { rewrite echo_answer in Hrejected |- *. cbv zeta in *. simpl in *.
    by destruct (RateLimiter.isAllowed u3 _).1. }
  rewrite Hstatus in Hanswer.
  destruct (axiosError_answered overloaded 429 Hoverloaded Hanswer) as [Hmsg Hcode].
  destruct (axiosError_unanswered silent 429 Hsilent Hnone) as (Hmsg' & Hcode' & Hne).
  change (statusMessage 429) with "Request failed with status code 429" in *.
  split.
  - intros Hfull. unfold Gate.forward, Gate.afterCanForward. simpl.
    destruct (Throttler.canForward t1 throttler) as [r th']. simpl in Hfull. by subst r.
  - intros Hroom. unfold Gate.forward, Gate.afterCanForward. simpl.
    destruct (Throttler.canForward t1 throttler) as [r th']. simpl in Hroom. subst r.
    unfold Gate.failedBody. simpl. rewrite Hmsg, Hmsg', Hcode, Hcode'.
    repeat split; try done. intros [= Heq]. by apply Hne.
Qed.

Lemma failures_told_apart_witness :
  (Gate.forward (JObj [("id", JNum 7); ("data", JStr "7")]) 10 11 12
     (λ _, Rejected (mkThrown true "Request failed with status code 429" true (Some 429)))
     Throttler.new).1.1
  ≠ (Gate.forward (JObj [("id", JNum 7); ("data", JStr "7")]) 10 11 12
       (λ _, Rejected (mkThrown true "timeout of 5000ms exceeded" true None))
       Throttler.new).1.1.
Proof.
  refine (proj1 (proj2 (proj2 (proj2 (proj2 (proj2 (proj2 (proj2
    (proj2 (failures_told_apart (JObj [("id", JNum 7); ("data", JStr "7")])
              10 11 12 13 14 15 (λ data, Resolved data) Throttler.new (RateLimiter.mk [3] 1)
              (mkThrown true "Request failed with status code 429" true (Some 429))
              (mkThrown true "timeout of 5000ms exceeded" true None)
              _ _ _ _ _) _))))))))).
  - vm_compute. discriminate.
  - reflexivity.
  - reflexivity.
  - reflexivity.
  - reflexivity.
  - reflexivity.
Defined.

(** C9, as stated, fails on the code for the Echo Service: its snapshot
    has no rejected count.  Two histories that differ in how many calls
    were rejected (one against two) give the same [GET /health] answer. *)
Lemma sink_health_without_rejections :
  count_of false (RateLimiter.run (replicate 513 0) RateLimiter.new).1 = 1 ∧
  count_of false (RateLimiter.run (replicate 514 0) RateLimiter.new).1 = 2 ∧
  (Sink.health 1 1 (RateLimiter.run (replicate 513 0) RateLimiter.new).2).1
  = (Sink.health 1 1 (RateLimiter.run (replicate 514 0) RateLimiter.new).2).1.
Proof. vm_compute. done. Qed.

(** C9, amended.  [GET /health] of the Throttle Service answers 200 with
    the current windowed count ([currentCalls]), the remaining capacity,
    the lifetime [throttledCount] and the limit 4096; [GET /health] of the
    Echo Service answers 200 with the current windowed count, the remaining
    capacity and the limit 512, and with no rejected count. *)
Theorem health_snapshot (t1 t2 : Z) (throttler : Throttler.t) (rateLimiter : RateLimiter.t) :
  let gate := (Gate.health t1 t2 throttler).1 in
  let sink := (Sink.health t1 t2 rateLimiter).1 in
  let throttler1 := (Throttler.getCurrentCount t1 throttler).2 in
  let rateLimiter1 := (RateLimiter.getCurrentCount t1 rateLimiter).2 in
  gate.(status) = 200 ∧
  field "currentCalls" gate.(body) = Some (JNum (Z.of_nat (length (prune t1 throttler.(Throttler.calls))))) ∧
  field "remainingCapacity" gate.(body) = Some (JNum (Throttler.getRemainingCapacity t2 throttler1).1) ∧
  field "throttledCount" gate.(body) = Some (JNum throttler.(Throttler.throttledCount)) ∧
  field "maxCallsPerMinute" gate.(body) = Some (JNum Throttler.new.(Throttler.maxCallsPerMinute)) ∧
  sink.(status) = 200 ∧
  field "currentCalls" sink.(body) = Some (JNum (Z.of_nat (length (prune t1 rateLimiter.(RateLimiter.calls))))) ∧
  field "remainingCapacity" sink.(body) = Some (JNum (RateLimiter.getRemainingCapacity t2 rateLimiter1).1) ∧
  field "maxCallsPerMinute" sink.(body) = Some (JNum RateLimiter.new.(RateLimiter.maxCallsPerMinute)) ∧
  (∃ a b c d e f, sink.(body) =
     JObj [("status", a); ("service", b); ("port", c); ("currentCalls", d);
           ("remainingCapacity", e); ("maxCallsPerMinute", f)]).
Proof.
  simpl. repeat split; try reflexivity. by do 6 eexists.
Qed.

(** * The Caller Service's ramp *)

Section caller.

Variable env : Caller.Env.

Lemma makeCall_id callId : Caller.id_of (Caller.makeCall env callId) = Some (JNum callId).
Proof. unfold Caller.makeCall. by destruct (Caller.post env _). Qed.

Lemma loop_ids n : ∀ i startId callPromises,
  map Caller.id_of (Caller.loop env n i startId callPromises) =
    map Caller.id_of callPromises ++ map (λ x, Some (JNum x)) (seqZ (startId + i) (Z.of_nat n)).
Proof.
  induction n as [|n IH]; intros i startId callPromises.
  { cbn [Caller.loop]. rewrite seqZ_nil by done. cbn [map]. by rewrite app_nil_r. }
  cbn [Caller.loop]. rewrite IH, map_app. cbn [map]. rewrite makeCall_id.
  rewrite (seqZ_cons (startId + i)) by lia. cbn [map].
  rewrite <-app_assoc. cbn [app].
  do 3 f_equal. f_equal; lia.
Qed.

Lemma makeCalls_ids count startId :
  0 ≤ count →
  map Caller.id_of (Caller.makeCalls env count startId) =
    map (λ x, Some (JNum x)) (seqZ startId count).
Proof.
  intros Hcount. unfold Caller.makeCalls. rewrite loop_ids. cbn [map app].
  f_equal. f_equal; lia.
Qed.

Lemma makeCalls_length count startId :
  0 ≤ count → Z.of_nat (length (Caller.makeCalls env count startId)) = count.
Proof.
  intros Hcount. rewrite <-(length_map Caller.id_of), makeCalls_ids by done.
  rewrite length_map, length_seqZ. lia.
Qed.

End caller.

(** C6.  Whatever the Throttle Service answers and however long each
    minute takes, [main] issues 16, 256, 4096 and 65536 calls in its four
    minutes, with the ids 1..16, 17..272, 273..4368 and 4369..69904 in that
    order, and logs 69904 = 16 + 16^2 + 16^3 + 16^4 as the total. *)
Theorem epoch_ramp (env : Caller.Env) (minuteDuration : Z → Z) :
  Caller.issued (Caller.main env minuteDuration) =
    map (map (λ x, Some (JNum x)))
        [range 1 16; range 17 272; range 273 4368; range 4369 69904] ∧
  map (λ m, Z.of_nat (length m)) (Caller.main env minuteDuration).(Caller.minutes) =
    [16; 256; 4096; 65536] ∧
  (Caller.main env minuteDuration).(Caller.total) = 69904 ∧
  (Caller.main env minuteDuration).(Caller.total) = 16 ^ 1 + 16 ^ 2 + 16 ^ 3 + 16 ^ 4 ∧
  Z.of_nat (length (concat (Caller.main env minuteDuration).(Caller.minutes))) = 69904.
Proof.
  unfold Caller.main, Caller.issued, range.
  cbn [Caller.minutes Caller.total map concat].
  split; [|split; [|split; [|split]]].
  - rewrite !makeCalls_ids by lia. repeat (f_equal; try lia).
  - rewrite !makeCalls_length by lia. done.
  - lia.
  - lia.
  - rewrite !length_app, !Nat2Z.inj_add, !makeCalls_length by lia. simpl. lia.
Qed.

(** * Interleaved requests *)

Section interleavings.

Implicit Types (now a b t : Z) (cs : list Z) (th : Throttler.t) (rl : RateLimiter.t).
Implicit Types (s : GateLoop.Sys) (j : GateLoop.Job) (js : list GateLoop.Job).

Lemma brimful_prune c b now cs : now ≤ b → brimful c b cs → prune now cs = cs.
Proof.
  intros Hle [_ Hfresh]. apply prune_all.
  eapply Forall_impl; [exact Hfresh|]. simpl. lia.
Qed.

Lemma brimful_canForward c b now th :
  now ≤ b → th.(Throttler.maxCallsPerMinute) = c → brimful c b th.(Throttler.calls) →
  Throttler.canForward now th =
    (false, Throttler.set_throttledCount (th.(Throttler.throttledCount) + 1) th).
Proof.
  intros Hle Hc Hfull. rewrite canForward_eq, (brimful_prune c b) by done.
  destruct Hfull as [Hlen _]. rewrite bool_decide_eq_false_2 by lia. done.
Qed.

Lemma brimful_getCurrentCount c b now th :
  now ≤ b → brimful c b th.(Throttler.calls) → (Throttler.getCurrentCount now th).2 = th.
Proof.
  intros Hle Hfull. unfold Throttler.getCurrentCount. simpl.
  change (filter _ th.(Throttler.calls)) with (prune now th.(Throttler.calls)).
  rewrite (brimful_prune c b) by done. by destruct th.
Qed.

Lemma brimful_getRemainingCapacity c b now th :
  now ≤ b → brimful c b th.(Throttler.calls) → (Throttler.getRemainingCapacity now th).2 = th.
Proof. intros Hle Hfull. by apply (brimful_getCurrentCount c b). Qed.

Lemma admitted_snoc s h now r ds :
  ds = s.(GateLoop.decisions) ++ [(h, now, r)] →
  map (λ d : nat * Z * bool, d.1.2) (filter (λ d : nat * Z * bool, d.2 = true) ds) =
    GateLoop.admitted s ++ (if r then [now] else []).
Proof.
  intros ->. unfold GateLoop.admitted. rewrite filter_app, map_app. f_equal.
  destruct r; [by rewrite filter_cons_True|by rewrite filter_cons_False].
Qed.

Lemma brimful_afterCanForward c b receivedData r t2 t3 th :
  t2 ≤ b → t3 ≤ b → brimful c b th.(Throttler.calls) →
  (Gate.afterCanForward receivedData r t2 t3 th).1.2 = th.
Proof.
  intros Ht2 Ht3 Hfull. unfold Gate.afterCanForward.
  pose proof (brimful_getCurrentCount c b t2 _ Ht2 Hfull) as H2.
  destruct (Throttler.getCurrentCount t2 th) as [n2 th2]. simpl in H2. subst th2.
  pose proof (brimful_getRemainingCapacity c b t3 _ Ht3 Hfull) as H3.
  destruct (Throttler.getRemainingCapacity t3 th) as [n3 th3]. simpl in H3. subst th3.
  by destruct r.
Qed.

Lemma brimful_health c b t1 t2 th :
  t1 ≤ b → t2 ≤ b → brimful c b th.(Throttler.calls) → (Gate.health t1 t2 th).2 = th.
Proof.
  intros Ht1 Ht2 Hfull. unfold Gate.health.
  pose proof (brimful_getCurrentCount c b t1 _ Ht1 Hfull) as H1.
  destruct (Throttler.getCurrentCount t1 th) as [n1 th1]. simpl in H1. subst th1.
  pose proof (brimful_getRemainingCapacity c b t2 _ Ht2 Hfull) as H2.
  destruct (Throttler.getRemainingCapacity t2 th) as [n2 th2]. simpl in H2. by subst th2.
Qed.

(** While the counter is brimful every job leaves it as it is, and every
    callback is turned away. *)
Lemma brimful_step c b j s s' :
  GateLoop.step j s = Some s' →
  Forall (λ t, t ≤ b) (GateLoop.readings j) →
  s.(GateLoop.throttler).(Throttler.maxCallsPerMinute) = c →
  brimful c b s.(GateLoop.throttler).(Throttler.calls) →
  s'.(GateLoop.throttler).(Throttler.maxCallsPerMinute) = c ∧
  s'.(GateLoop.throttler).(Throttler.calls) = s.(GateLoop.throttler).(Throttler.calls) ∧
  GateLoop.admitted s' = GateLoop.admitted s.
Proof.
  intros Hstep Hclock Hc Hfull.
  destruct j as [h d|now|h t2 t3|h result|t1 t2];
    cbn [GateLoop.step GateLoop.readings] in *.
  - destruct (s.(GateLoop.received) !! h); [done|]. by injection Hstep as <-.
  - destruct s.(GateLoop.processing) as [|h rest]; [done|].
    apply Forall_cons in Hclock as [Hnow _].
    rewrite (brimful_canForward c b) in Hstep by done. injection Hstep as <-. simpl.
    do 2 (split; [done|]).
    unfold GateLoop.admitted at 1. simpl.
    erewrite admitted_snoc by done. by rewrite app_nil_r.
  - destruct (s.(GateLoop.settled) !! h) as [r|]; [|done].
    destruct (s.(GateLoop.received) !! h) as [d|]; [|done].
    apply Forall_cons in Hclock as [Ht2 Hclock]. apply Forall_cons in Hclock as [Ht3 _].
    pose proof (brimful_afterCanForward c b d r t2 t3 _ Ht2 Ht3 Hfull) as Hsame.
    destruct (Gate.afterCanForward d r t2 t3 _) as [[next th'] lines].
    simpl in Hsame. subst th'.
    destruct next; by injection Hstep as <-.
  - destruct (s.(GateLoop.posting) !! h) as [d'|]; [|done].
    destruct (s.(GateLoop.received) !! h) as [d|]; [|done].
    destruct (Gate.afterPost d result) as [res lines]. by injection Hstep as <-.
  - apply Forall_cons in Hclock as [Ht1 Hclock]. apply Forall_cons in Hclock as [Ht2 _].
    pose proof (brimful_health c b t1 t2 _ Ht1 Ht2 Hfull) as Hsame.
    destruct (Gate.health t1 t2 _) as [res th']. simpl in Hsame. subst th'.
    by injection Hstep as <-.
Qed.

Lemma brimful_exec c b js : ∀ s s',
  GateLoop.exec js s = Some s' →
  Forall (λ t, t ≤ b) (concat (map GateLoop.readings js)) →
  s.(GateLoop.throttler).(Throttler.maxCallsPerMinute) = c →
  brimful c b s.(GateLoop.throttler).(Throttler.calls) →
  s'.(GateLoop.throttler).(Throttler.maxCallsPerMinute) = c ∧
  s'.(GateLoop.throttler).(Throttler.calls) = s.(GateLoop.throttler).(Throttler.calls) ∧
  GateLoop.admitted s' = GateLoop.admitted s.
Proof.
  induction js as [|j js IH]; intros s s' Hexec Hclock Hc Hfull; simpl in *.
  { by injection Hexec as <-. }
  destruct (GateLoop.step j s) as [s1|] eqn:Hstep; [|done].
  apply Forall_app in Hclock as [Hj Hjs].
  destruct (brimful_step c b j s s1 Hstep Hj Hc Hfull) as (Hc1 & Hcalls1 & Hadm1).
  rewrite <-Hcalls1 in Hfull.
  destruct (IH s1 s' Hexec Hjs Hc1 Hfull) as (Hc' & Hcalls' & Hadm').
  by rewrite Hcalls', Hcalls1, Hadm', Hadm1.
Qed.

Lemma brimful_isAllowed c b now rl :
  now ≤ b → rl.(RateLimiter.maxCallsPerMinute) = c → brimful c b rl.(RateLimiter.calls) →
  RateLimiter.isAllowed now rl = (false, rl).
Proof.
  intros Hle Hc Hfull. rewrite isAllowed_eq, (brimful_prune c b) by done.
  destruct Hfull as [Hlen _]. rewrite bool_decide_eq_false_2 by lia. by destruct rl.
Qed.

Lemma brimful_limiter_getCurrentCount c b now rl :
  now ≤ b → brimful c b rl.(RateLimiter.calls) → (RateLimiter.getCurrentCount now rl).2 = rl.
Proof.
  intros Hle Hfull. unfold RateLimiter.getCurrentCount. simpl.
  change (filter _ rl.(RateLimiter.calls)) with (prune now rl.(RateLimiter.calls)).
  rewrite (brimful_prune c b) by done. by destruct rl.
Qed.

Lemma brimful_sink_step c b (j : SinkLoop.Job) rl :
  Forall (λ t, t ≤ b) (SinkLoop.readings j) →
  rl.(RateLimiter.maxCallsPerMinute) = c → brimful c b rl.(RateLimiter.calls) →
  (SinkLoop.step j rl).2 = rl ∧
  ∀ d t1 t2 t3, j = SinkLoop.Echo d t1 t2 t3 →
    (SinkLoop.step j rl).1 = mkResponse 429 (JObj [("message", JStr "Exceeding Limit")]).
Proof.
  intros Hclock Hc Hfull. destruct j as [d t1 t2 t3|t1 t2]; cbn [SinkLoop.readings] in Hclock.
  - apply Forall_cons in Hclock as [Ht1 Hclock]. apply Forall_cons in Hclock as [Ht2 Hclock].
    apply Forall_cons in Hclock as [Ht3 _].
    unfold SinkLoop.step, Sink.echo, RateLimiter.getRemainingCapacity.
    pose proof (brimful_limiter_getCurrentCount c b t1 _ Ht1 Hfull) as H1.
    destruct (RateLimiter.getCurrentCount t1 rl) as [n1 rl1]. simpl in H1. subst rl1.
    pose proof (brimful_limiter_getCurrentCount c b t2 _ Ht2 Hfull) as H2.
    destruct (RateLimiter.getCurrentCount t2 rl) as [n2 rl2]. simpl in H2. subst rl2.
    rewrite (brimful_isAllowed c b) by done. simpl. split; [done|]. by intros ???? [= <- _ _ _].
  - apply Forall_cons in Hclock as [Ht1 Hclock]. apply Forall_cons in Hclock as [Ht2 _].
    unfold SinkLoop.step, Sink.health, RateLimiter.getRemainingCapacity.
    pose proof (brimful_limiter_getCurrentCount c b t1 _ Ht1 Hfull) as H1.
    destruct (RateLimiter.getCurrentCount t1 rl) as [n1 rl1]. simpl in H1. subst rl1.
    pose proof (brimful_limiter_getCurrentCount c b t2 _ Ht2 Hfull) as H2.
    destruct (RateLimiter.getCurrentCount t2 rl) as [n2 rl2]. simpl in H2. subst rl2.
    simpl. split; [done|]. by intros.
Qed.

Lemma brimful_sink_exec c b (js : list SinkLoop.Job) rl :
  Forall (λ t, t ≤ b) (concat (map SinkLoop.readings js)) →
  rl.(RateLimiter.maxCallsPerMinute) = c → brimful c b rl.(RateLimiter.calls) →
  (SinkLoop.exec js rl).2 = rl.
Proof.
  intros Hclock Hc Hfull. induction js as [|j js IH]; [done|].
  simpl in *. apply Forall_app in Hclock as [Hj Hjs].
  destruct (brimful_sink_step c b j rl Hj Hc Hfull) as [Hsame _].
  destruct (SinkLoop.step j rl) as [res rl1]. simpl in Hsame. subst rl1.
  specialize (IH Hjs). by destruct (SinkLoop.exec js rl).
Qed.

Lemma sink_step_echo d t1 t2 t3 rl :
  SinkLoop.step (SinkLoop.Echo d t1 t2 t3) rl = (Sink.echo d t1 t2 t3 rl).1.
Proof. unfold SinkLoop.step. by destruct (Sink.echo d t1 t2 t3 rl) as [[res rl'] lines]. Qed.

(** The handler's two logged reads leave the counter pruned, nothing more. *)
Lemma afterCanForward_throttler receivedData r t2 t3 th :
  (Gate.afterCanForward receivedData r t2 t3 th).1.2 =
    Throttler.mk (prune t3 (prune t2 th.(Throttler.calls)))
                 th.(Throttler.maxCallsPerMinute) th.(Throttler.throttledCount).
Proof. unfold Gate.afterCanForward. simpl. by destruct r. Qed.

Lemma health_throttler t1 t2 th :
  (Gate.health t1 t2 th).2 =
    Throttler.mk (prune t2 (prune t1 th.(Throttler.calls)))
                 th.(Throttler.maxCallsPerMinute) th.(Throttler.throttledCount).
Proof. done. Qed.

(** Every job keeps the counter in step with the callbacks that admitted. *)
Lemma tracks_step c j s s' last rest :
  GateLoop.step j s = Some s' →
  Sorted Z.le (last :: GateLoop.readings j ++ rest) →
  s.(GateLoop.throttler).(Throttler.maxCallsPerMinute) = c →
  tracks c last (GateLoop.admitted s) s.(GateLoop.throttler).(Throttler.calls) →
  ∃ last', Sorted Z.le (last' :: rest) ∧
    s'.(GateLoop.throttler).(Throttler.maxCallsPerMinute) = c ∧
    tracks c last' (GateLoop.admitted s') s'.(GateLoop.throttler).(Throttler.calls).
Proof.
  intros Hstep Hsorted Hc Htr.
  destruct j as [h d|now|h t2 t3|h result|t1 t2];
    cbn [GateLoop.step GateLoop.readings app] in *.
  - destruct (s.(GateLoop.received) !! h); [done|]. injection Hstep as <-. by exists last.
  - destruct s.(GateLoop.processing) as [|h rest']; [done|].
    apply Sorted_inv in Hsorted as [Hsorted Hhd]. apply HdRel_inv in Hhd.
    exists now. split; [done|].
    rewrite canForward_eq, Hc in Hstep. case_bool_decide as Hroom;
      injection Hstep as <-; simpl; (split; [done|]);
      unfold GateLoop.admitted at 1; simpl; erewrite admitted_snoc by done.
    + by eapply tracks_admit.
    + rewrite app_nil_r. by eapply tracks_prune.
  - destruct (s.(GateLoop.settled) !! h) as [r|]; [|done].
    destruct (s.(GateLoop.received) !! h) as [d|]; [|done].
    apply Sorted_inv in Hsorted as [Hsorted Hhd2]. apply HdRel_inv in Hhd2.
    apply Sorted_inv in Hsorted as [Hsorted Hhd3]. apply HdRel_inv in Hhd3.
    pose proof (afterCanForward_throttler d r t2 t3 s.(GateLoop.throttler)) as Hth.
    destruct (Gate.afterCanForward d r t2 t3 _) as [[next th'] lines].
    simpl in Hth. subst th'. exists t3. split; [done|].
    assert (tracks c t3 (GateLoop.admitted s)
              (prune t3 (prune t2 s.(GateLoop.throttler).(Throttler.calls)))).
    { eapply tracks_prune; [exact Hhd3|]. by eapply tracks_prune. }
    destruct next; by injection Hstep as <-.
  - destruct (s.(GateLoop.posting) !! h) as [d'|]; [|done].
    destruct (s.(GateLoop.received) !! h) as [d|]; [|done].
    destruct (Gate.afterPost d result) as [res lines]. injection Hstep as <-. by exists last.
  - apply Sorted_inv in Hsorted as [Hsorted Hhd1]. apply HdRel_inv in Hhd1.
    apply Sorted_inv in Hsorted as [Hsorted Hhd2]. apply HdRel_inv in Hhd2.
    pose proof (health_throttler t1 t2 s.(GateLoop.throttler)) as Hth.
    destruct (Gate.health t1 t2 _) as [res th']. simpl in Hth. subst th'.
    injection Hstep as <-. exists t2. split; [done|]. split; [done|]. simpl.
    eapply tracks_prune; [exact Hhd2|]. by eapply tracks_prune.
Qed.

Lemma tracks_exec c js : ∀ s s' last,
  GateLoop.exec js s = Some s' →
  Sorted Z.le (last :: concat (map GateLoop.readings js)) →
  s.(GateLoop.throttler).(Throttler.maxCallsPerMinute) = c →
  tracks c last (GateLoop.admitted s) s.(GateLoop.throttler).(Throttler.calls) →
  ∃ last', tracks c last' (GateLoop.admitted s') s'.(GateLoop.throttler).(Throttler.calls).
Proof.
  induction js as [|j js IH]; intros s s' last Hexec Hsorted Hc Htr; simpl in *.
  { injection Hexec as <-. by exists last. }
  destruct (GateLoop.step j s) as [s1|] eqn:Hstep; [|done].
  destruct (tracks_step c j s s1 last _ Hstep Hsorted Hc Htr) as (last1 & Hs1 & Hc1 & Htr1).
  by eapply IH.
Qed.

(** The promise chain decides the requests in the order they arrived. *)
Lemma decisions_in_arrival_order js : ∀ s s',
  GateLoop.exec js s = Some s' →
  map (λ d : nat * Z * bool, d.1.1) s'.(GateLoop.decisions) ++ s'.(GateLoop.processing) =
    map (λ d : nat * Z * bool, d.1.1) s.(GateLoop.decisions) ++ s.(GateLoop.processing)
      ++ GateLoop.arrivals js.
Proof.
  induction js as [|j js IH]; intros s s' Hexec; simpl in Hexec.
  { injection Hexec as <-. unfold GateLoop.arrivals. simpl. by rewrite app_nil_r. }
  destruct (GateLoop.step j s) as [s1|] eqn:Hstep; [|done].
  rewrite (IH s1 s' Hexec). unfold GateLoop.arrivals. rewrite bind_cons.
  fold (GateLoop.arrivals js).
  destruct j as [h d|now|h t2 t3|h result|t1 t2]; cbn [GateLoop.step] in Hstep.
  - destruct (s.(GateLoop.received) !! h); [done|]. injection Hstep as <-. simpl.
    by rewrite <-!app_assoc.
  - destruct s.(GateLoop.processing) as [|h rest]; [done|].
    destruct (Throttler.canForward now _) as [r th']. injection Hstep as <-. simpl.
    by rewrite map_app, <-!app_assoc.
  - destruct (s.(GateLoop.settled) !! h) as [r|]; [|done].
    destruct (s.(GateLoop.received) !! h) as [d|]; [|done].
    destruct (Gate.afterCanForward d r t2 t3 _) as [[[res|data] th'] lines];
      by injection Hstep as <-.
  - destruct (s.(GateLoop.posting) !! h) as [d'|]; [|done].
    destruct (s.(GateLoop.received) !! h) as [d|]; [|done].
    destruct (Gate.afterPost d result) as [res lines]. by injection Hstep as <-.
  - destruct (Gate.health t1 t2 _) as [res th']. by injection Hstep as <-.
Qed.

(** X1.  However the jobs of any number of requests interleave, with a clock
    that does not run backwards no trailing window ever holds more
    admissions than the capacity. *)
Theorem admissions_bounded_under_interleaving c js s' :
  0 ≤ c →
  GateLoop.exec js (GateLoop.init (Throttler.mk [] c 0)) = Some s' →
  Sorted Z.le (concat (map GateLoop.readings js)) →
  ∀ t, windowCount t (GateLoop.admitted s') ≤ c.
Proof.
  intros Hc Hexec Hsorted t.
  assert (∃ last, Sorted Z.le (last :: concat (map GateLoop.readings js))) as [last Hlast].
  { destruct (concat (map GateLoop.readings js)) as [|x l]; [exists 0; by repeat constructor|].
    exists x. constructor; [done|]. by constructor. }
  destruct (tracks_exec c js _ s' last Hexec Hlast) as [last' (_ & _ & Hwin)]; [done| |done].
  by apply tracks_empty.
Qed.

End interleavings.

(** C4.  The check-and-insert of a counter runs as one job of the event
    loop, so a later check always sees an earlier insert.  In the Throttle
    Service: when a callback finds exactly one free slot it admits, and
    then, whatever jobs of whatever requests run in between, every later
    callback at which none of the retained timestamps has expired is
    rejected; the stretch admits exactly once.  In the Echo Service, where
    a whole request is one job, the same holds of two [POST /echo]
    requests. *)
Theorem no_double_admission :
  (∀ s a mid b s1 s2 s3,
     GateLoop.step (GateLoop.Callback a) s = Some s1 →
     GateLoop.exec mid s1 = Some s2 →
     GateLoop.step (GateLoop.Callback b) s2 = Some s3 →
     Z.of_nat (length (prune a s.(GateLoop.throttler).(Throttler.calls)))
       = s.(GateLoop.throttler).(Throttler.maxCallsPerMinute) - 1 →
     Forall (λ t, t ≤ b) (concat (map GateLoop.readings mid)) →
     Forall (λ x, b - 60000 < x) s1.(GateLoop.throttler).(Throttler.calls) →
     (∃ h1, s1.(GateLoop.decisions) = s.(GateLoop.decisions) ++ [(h1, a, true)]) ∧
     prune b s2.(GateLoop.throttler).(Throttler.calls)
       = prune a s.(GateLoop.throttler).(Throttler.calls) ++ [a] ∧
     (∃ h2, s3.(GateLoop.decisions) = s2.(GateLoop.decisions) ++ [(h2, b, false)]) ∧
     GateLoop.admitted s3 = GateLoop.admitted s ++ [a]) ∧
  (∀ rl d1 x1 y1 a mid d2 x2 y2 b,
     x1 ≤ a → y1 ≤ a → x2 ≤ b → y2 ≤ b →
     Z.of_nat (length (prune a rl.(RateLimiter.calls)))
       = rl.(RateLimiter.maxCallsPerMinute) - 1 →
     Forall (λ t, t ≤ b) (concat (map SinkLoop.readings mid)) →
     Forall (λ x, b - 60000 < x)
       (SinkLoop.step (SinkLoop.Echo d1 x1 y1 a) rl).2.(RateLimiter.calls) →
     (SinkLoop.step (SinkLoop.Echo d1 x1 y1 a) rl).1 = mkResponse 200 d1 ∧
     prune b (SinkLoop.exec mid (SinkLoop.step (SinkLoop.Echo d1 x1 y1 a) rl).2).2.(RateLimiter.calls)
       = prune a rl.(RateLimiter.calls) ++ [a] ∧
     (SinkLoop.step (SinkLoop.Echo d2 x2 y2 b)
        (SinkLoop.exec mid (SinkLoop.step (SinkLoop.Echo d1 x1 y1 a) rl).2).2)
     = (mkResponse 429 (JObj [("message", JStr "Exceeding Limit")]),
        (SinkLoop.step (SinkLoop.Echo d1 x1 y1 a) rl).2)).
Proof.
  split.
  - intros s a mid b s1 s2 s3 Hfirst Hmid Hsecond Hslot Hclock Hfresh.
    set (c := s.(GateLoop.throttler).(Throttler.maxCallsPerMinute)) in *.
    cbn [GateLoop.step] in Hfirst, Hsecond.
    destruct s.(GateLoop.processing) as [|h1 rest1] eqn:Hq1; [done|].
    rewrite canForward_eq in Hfirst. fold c in Hfirst.
    rewrite bool_decide_eq_true_2 in Hfirst by lia. injection Hfirst as <-.
    simpl in Hfresh, Hmid.
    assert (brimful c b (prune a s.(GateLoop.throttler).(Throttler.calls) ++ [a])) as Hfull.
    { split; [|done]. rewrite length_app. simpl. lia. }
    destruct (brimful_exec c b mid _ s2 Hmid Hclock) as (Hc2 & Hcalls2 & Hadm2); [done..|].
    simpl in Hcalls2. rewrite <-Hcalls2 in Hfull.
    destruct s2.(GateLoop.processing) as [|h2 rest2] eqn:Hq2; [done|].
    rewrite (brimful_canForward c b) in Hsecond by (done || lia).
    injection Hsecond as <-. simpl.
    split; [by exists h1|].
    split; [by rewrite (brimful_prune c b) by (done || lia)|].
    split; [by exists h2|].
    unfold GateLoop.admitted at 1. simpl. erewrite admitted_snoc by done.
    rewrite app_nil_r, Hadm2. unfold GateLoop.admitted at 1. simpl.
    by erewrite admitted_snoc by done.
  - intros rl d1 x1 y1 a mid d2 x2 y2 b Hx1 Hy1 Hx2 Hy2 Hslot Hclock.
    set (c := rl.(RateLimiter.maxCallsPerMinute)) in *.
    assert (SinkLoop.step (SinkLoop.Echo d1 x1 y1 a) rl =
              (mkResponse 200 d1, RateLimiter.mk (prune a rl.(RateLimiter.calls) ++ [a]) c))
      as ->.
    { rewrite sink_step_echo, echo_answer. cbv zeta. rewrite echo_decision by done.
      rewrite isAllowed_eq. fold c. by rewrite bool_decide_eq_true_2 by lia. }
    simpl. intros Hfresh.
    assert (brimful c b (prune a rl.(RateLimiter.calls) ++ [a])) as Hfull.
    { split; [|done]. rewrite length_app. simpl. lia. }
    rewrite (brimful_sink_exec c b) by done. simpl.
    rewrite (brimful_prune c b) by (done || lia).
    destruct (brimful_sink_step c b (SinkLoop.Echo d2 x2 y2 b)
                (RateLimiter.mk (prune a rl.(RateLimiter.calls) ++ [a]) c)) as [Hsame Hres];
      [by repeat constructor|done|done|].
    specialize (Hres d2 x2 y2 b eq_refl). do 2 (split; [done|]).
    change (let '(res, rateLimiter, _) := Sink.echo d2 x2 y2 b ?rl0 in (res, rateLimiter))
      with (SinkLoop.step (SinkLoop.Echo d2 x2 y2 b) rl0).
    destruct (SinkLoop.step _ _) as [res rl3]. simpl in Hsame, Hres. by subst.
Qed.

Lemma no_double_admission_witness :
  ∃ s3,
    GateLoop.exec [GateLoop.Callback 5; GateLoop.Health 6 6; GateLoop.Callback 7]
      (GateLoop.mkSys (Throttler.mk [] 1 0) ∅ [1; 2]%nat ∅ ∅ ∅ [] []) = Some s3 ∧
    GateLoop.admitted s3 = [5].
Proof.
  pose (s := GateLoop.mkSys (Throttler.mk [] 1 0) ∅ [1; 2]%nat ∅ ∅ ∅ [] []).
  pose (s1 := GateLoop.mkSys (Throttler.mk [5] 1 0) ∅ [2%nat] (<[1%nat := true]> ∅) ∅ ∅
                [(1%nat, 5, true)] []).
  pose (s3 := GateLoop.mkSys (Throttler.mk [5] 1 1) ∅ []
                (<[2%nat := false]> (<[1%nat := true]> ∅)) ∅ ∅
                [(1%nat, 5, true); (2%nat, 7, false)] []).
  exists s3. split; [reflexivity|].
  destruct no_double_admission as [Hgate _].
  destruct (Hgate s 5 [GateLoop.Health 6 6] 7 s1 s1 s3) as (_ & _ & _ & Hadm).
  - reflexivity.
  - reflexivity.
  - reflexivity.
  - reflexivity.
  - repeat constructor; lia.
  - repeat constructor; lia.
  - exact Hadm.
Defined.

(** * The scenario of the specification, run on the code

    Capacity 3: three requests at clock 0 are admitted, a fourth at clock 0
    is rejected, and one at clock 61000 is admitted again. *)
Example scenario_capacity_3 :
  (Throttler.run [0; 0; 0; 0; 61000] (Throttler.mk [] 3 0)).1
    = [true; true; true; false; true] ∧
  (Throttler.run [0; 0; 0; 0; 61000] (Throttler.mk [] 3 0)).2
    = Throttler.mk [61000] 3 1.
Proof. by vm_compute. Qed.

(** The same requests through the event loop, all five received before
    any callback runs. *)
Example scenario_interleaved :
  GateLoop.admitted <$>
    GateLoop.exec
      (((λ h, GateLoop.Request h (JObj [("id", JNum (Z.of_nat h))])) <$> [1; 2; 3; 4; 5]%nat)
       ++ [GateLoop.Callback 0; GateLoop.Callback 0; GateLoop.Resume 1 0 0;
           GateLoop.Callback 0; GateLoop.Callback 0; GateLoop.Resume 4 1 1;
           GateLoop.Callback 61000])
      (GateLoop.init (Throttler.mk [] 3 0))
  = Some [0; 0; 0; 61000].
Proof. by vm_compute. Qed.

(** One request through each handler. *)
Example forward_when_full :
  (Gate.forward (JObj [("id", JNum 7); ("data", JStr "7")]) 10 11 12
     (λ data, Resolved data) (Throttler.mk [3] 1 0)).1
  = (mkResponse 429
       (JObj [("error", JStr "Throttled");
              ("message", JStr "Request rate exceeds 4,096 calls per minute");
              ("throttledCount", JNum 1)]),
     Throttler.mk [3] 1 1).
Proof. by vm_compute. Qed.

Example forward_when_sink_silent :
  (Gate.forward (JObj [("id", JNum 7); ("data", JStr "7")]) 10 11 12
     (λ _, Rejected (mkThrown true "timeout of 5000ms exceeded" true None))
     Throttler.new).1.1
  = mkResponse 500
      (JObj [("error", JStr "Forwarding failed");
             ("message", JStr "timeout of 5000ms exceeded");
             ("requestId", JNum 7)]).
Proof. by vm_compute. Qed.

Example echo_when_full :
  (Sink.echo (JObj [("id", JNum 7); ("data", JStr "7")]) 10 11 12
     (RateLimiter.mk [3] 1)).1
  = (mkResponse 429 (JObj [("message", JStr "Exceeding Limit")]), RateLimiter.mk [3] 1).
Proof. by vm_compute. Qed.

Example makeCalls_three :
  Caller.callData <$>
    Caller.makeCalls (Caller.mkEnv (λ data, Resolved data) (λ _, 0) (λ _, 5)) 3 17
  = [JObj [("id", JNum 17); ("data", JStr "17")];
     JObj [("id", JNum 18); ("data", JStr "18")];
     JObj [("id", JNum 19); ("data", JStr "19")]].
Proof. by vm_compute. Qed.

(** * Further properties of the counters *)

(** A full Echo Service counter turns a call away and stays as it is. *)
Lemma rejection_frame_limiter_witness :
  (RateLimiter.isAllowed 9 (RateLimiter.mk [3; 4] 2)).2 = RateLimiter.mk [3; 4] 2.
Proof.
  assert (reachable_limiter 2 (RateLimiter.mk [3; 4] 2)) as Hreach.
  { exact (reachl_isAllowed 2 4 _ (reachl_isAllowed 2 3 _ (reachl_new 2))). }
  exact (rejection_frame_limiter 2 9 (RateLimiter.mk [3; 4] 2)
           (RateLimiter.isAllowed 9 (RateLimiter.mk [3; 4] 2)).2
           ltac:(lia) Hreach eq_refl).
Defined.

(** X8.  [throttledCount] is a lifetime counter: over any sequence of
    [canForward] calls, at any clock readings, it grows by exactly the
    number of calls that returned [false]; every call returns one of the
    two results, and the capacity never changes. *)
Theorem throttledCount_lifetime (ts : list Z) (th : Throttler.t) :
  (Throttler.run ts th).2.(Throttler.throttledCount) =
    th.(Throttler.throttledCount) + count_of false (Throttler.run ts th).1 ∧
  count_of true (Throttler.run ts th).1 + count_of false (Throttler.run ts th).1 =
    Z.of_nat (length ts) ∧
  (Throttler.run ts th).2.(Throttler.maxCallsPerMinute) = th.(Throttler.maxCallsPerMinute).
Proof.
  revert th. induction ts as [|now ts IH]; intros th.
  { unfold count_of. simpl. lia. }
  simpl. rewrite canForward_eq.
  case_bool_decide;
    match goal with |- context [Throttler.run ts ?th1] =>
      specialize (IH th1); destruct (Throttler.run ts th1) as [rs th2] end;
    simpl in *; destruct IH as (-> & Hsum & ->); unfold count_of in *.
  - rewrite !filter_cons. repeat case_decide; try done. simpl. lia.
  - rewrite !filter_cons. repeat case_decide; try done. simpl. lia.
Qed.

(** X7.  Reading the counter never changes a later decision: after
    [getCurrentCount], [getRemainingCapacity] or a whole [GET /health] at
    clock readings not later than [now], [canForward] at [now] returns the
    same result and leaves the same counter as without the reads. *)
Theorem reads_keep_decisions (t1 t2 now : Z) (th : Throttler.t) :
  t1 ≤ now → t2 ≤ now →
  Throttler.canForward now (Throttler.getCurrentCount t1 th).2 = Throttler.canForward now th ∧
  Throttler.canForward now (Throttler.getRemainingCapacity t1 th).2
    = Throttler.canForward now th ∧
  Throttler.canForward now (Gate.health t1 t2 th).2 = Throttler.canForward now th.
Proof.
  intros H1 H2.
  assert (∀ t, t ≤ now →
    Throttler.canForward now (Throttler.getCurrentCount t th).2 = Throttler.canForward now th)
    as Hread.
  { intros t Ht. rewrite !canForward_eq. simpl.
    change (filter (λ timestamp, timestamp > t - 60000) th.(Throttler.calls))
      with (prune t th.(Throttler.calls)).
    by rewrite prune_prune. }
  split; [by apply Hread|]. split; [by apply Hread|].
  rewrite health_throttler, !canForward_eq. simpl. by rewrite !prune_prune.
Qed.

Lemma reads_keep_decisions_witness :
  Throttler.canForward 60003 (Gate.health 60001 60002 (Throttler.mk [1; 2; 3; 4] 4 0)).2
  = (true, Throttler.mk [4; 60003] 4 0).
Proof.
  destruct (reads_keep_decisions 60001 60002 60003 (Throttler.mk [1; 2; 3; 4] 4 0))
    as (_ & _ & H); [lia | lia |].
  exact H.
Defined.

(** X6.  A counter the service can reach rejects exactly when it is full of
    timestamps that are all still inside the window: it never turns a call
    away while a slot is free or a retained timestamp has expired. *)
Theorem rejects_exactly_when_full (c now : Z) (th : Throttler.t) :
  0 ≤ c → reachable c th →
  ((Throttler.canForward now th).1 = false ↔
   Z.of_nat (length th.(Throttler.calls)) = c ∧
   Forall (λ x, now - 60000 < x) th.(Throttler.calls)).
Proof.
  intros Hc Hreach. destruct (reachable_bounded c th Hc Hreach) as [Hcap Hlen].
  rewrite canForward_eq, Hcap. pose proof (prune_length now th.(Throttler.calls)) as Hple.
  case_bool_decide as Hroom; simpl; split; try done.
  - intros [Hfull Hfresh]. rewrite prune_all in Hroom by done. lia.
  - intros _. assert (prune now th.(Throttler.calls) = th.(Throttler.calls)) as Hkeep.
    { by apply (prune_full now _ c). }
    split; [rewrite Hkeep in Hroom; lia|].
    apply Forall_forall. intros x Hx. rewrite <-Hkeep in Hx. by apply prune_elem in Hx as [_ ?].
Qed.

Lemma rejects_exactly_when_full_witness :
  (Throttler.canForward 60001 (Throttler.mk [1; 2] 2 0)).1 ≠ false.
Proof.
  assert (reachable 2 (Throttler.mk [1; 2] 2 0)) as Hreach.
  { exact (reach_canForward 2 2 _ (reach_canForward 2 1 _ (reach_new 2))). }
  intros Hrej.
  destruct (proj1 (rejects_exactly_when_full 2 60001 (Throttler.mk [1; 2] 2 0) ltac:(lia) Hreach) Hrej)
    as [_ Hfresh].
  apply Forall_cons in Hfresh as [Hold _]. lia.
Defined.

Lemma admissions_sublist (ts : list Z) : ∀ th, Throttler.admissions ts th `sublist_of` ts.
Proof.
  induction ts as [|now ts IH]; intros th; simpl; [done|].
  destruct (Throttler.canForward now th) as [[] th1];
    [by apply sublist_skip | by apply sublist_cons].
Qed.

Lemma sorted_sublist (l k : list Z) :
  l `sublist_of` k → StronglySorted Z.le k → StronglySorted Z.le l.
Proof.
  induction 1 as [|x l k Hsub IH|x l k Hsub IH]; intros Hk; [done| |].
  - apply StronglySorted_cons in Hk as [Hx Hk]. apply StronglySorted_cons. split; [|by apply IH].
    apply Forall_forall. intros y Hy. rewrite Forall_forall in Hx.
    by eapply Hx, elem_of_sublist.
  - apply StronglySorted_cons in Hk as [_ Hk]. by apply IH.
Qed.

(** A run keeps the counter in step with its admissions, up to its last call. *)
Lemma run_tracks (c : Z) (ts : list Z) : ∀ th past l0,
  th.(Throttler.maxCallsPerMinute) = c →
  tracks c l0 past th.(Throttler.calls) →
  Sorted Z.le (l0 :: ts) →
  tracks c (default l0 (last ts)) (past ++ Throttler.admissions ts th)
         (Throttler.run ts th).2.(Throttler.calls).
Proof.
  induction ts as [|now ts IH]; intros th past l0 Hc Htr Hsorted.
  { simpl. by rewrite app_nil_r. }
  apply Sorted_inv in Hsorted as [Hsorted Hhd]. apply HdRel_inv in Hhd.
  assert (default l0 (last (now :: ts)) = default now (last ts)) as ->.
  { rewrite last_cons. by destruct (last ts). }
  simpl. rewrite canForward_eq, Hc. case_bool_decide as Hroom.
  - specialize (IH (Throttler.mk (prune now th.(Throttler.calls) ++ [now]) c
                                 th.(Throttler.throttledCount)) (past ++ [now]) now).
    destruct (Throttler.run ts _) as [rs th2]. simpl in *.
    rewrite <-app_assoc in IH. apply IH; [done| |done]. by eapply tracks_admit.
  - specialize (IH (Throttler.mk (prune now th.(Throttler.calls)) c
                                 (th.(Throttler.throttledCount) + 1)) past now).
    destruct (Throttler.run ts _) as [rs th2]. simpl in *.
    apply IH; [done| |done]. by eapply tracks_prune.
Qed.

(** X5.  With a clock that does not run backwards, what the counter retains
    after a sequence of calls is exactly the admissions that are still
    inside the window of the last call, in the order they were made: the
    array is sorted and nothing in it is newer than the last clock
    reading. *)
Theorem retained_are_window_admissions (c : Z) (ts : list Z) (l : Z) :
  0 ≤ c → Sorted Z.le ts → last ts = Some l →
  (Throttler.run ts (Throttler.mk [] c 0)).2.(Throttler.calls)
    = prune l (Throttler.admissions ts (Throttler.mk [] c 0)) ∧
  StronglySorted Z.le (Throttler.run ts (Throttler.mk [] c 0)).2.(Throttler.calls) ∧
  Forall (λ x, x ≤ l) (Throttler.run ts (Throttler.mk [] c 0)).2.(Throttler.calls).
Proof.
  intros Hc Hsorted Hlast.
  destruct ts as [|now ts]; [done|].
  pose proof (run_tracks c (now :: ts) (Throttler.mk [] c 0) [] now eq_refl
                (tracks_empty c now Hc)) as Htr.
  rewrite Hlast in Htr. simpl default in Htr.
  destruct Htr as (Hcalls & Hle & _).
  { constructor; [done|]. by constructor. }
  rewrite app_nil_l in Hcalls, Hle. split; [done|]. rewrite Hcalls. split.
  - eapply sorted_sublist; [apply sublist_filter|].
    eapply sorted_sublist; [apply admissions_sublist|].
    by apply Sorted_StronglySorted; [apply _|].
  - apply Forall_forall. intros x [Hx _]%prune_elem. rewrite Forall_forall in Hle. by apply Hle.
Qed.

Lemma retained_are_window_admissions_witness :
  (Throttler.run [0; 1; 2; 60001; 60002] (Throttler.mk [] 2 0)).2.(Throttler.calls)
  = prune 60002 (Throttler.admissions [0; 1; 2; 60001; 60002] (Throttler.mk [] 2 0)).
Proof.
  assert (Sorted Z.le [0; 1; 2; 60001; 60002]) as Hsorted.
  { repeat constructor; lia. }
  destruct (retained_are_window_admissions 2 [0; 1; 2; 60001; 60002] 60002) as (H & _);
    [lia | exact Hsorted | reflexivity |].
  exact H.
Defined.

(** * Further properties of the event loop *)

Lemma admissions_bounded_under_interleaving_witness :
  windowCount 60005 [5; 60005] ≤ 1.
Proof.
  pose (js := [GateLoop.Request 1 JNull; GateLoop.Request 2 JNull;
               GateLoop.Callback 5; GateLoop.Health 6 6; GateLoop.Callback 7;
               GateLoop.Request 3 JNull; GateLoop.Callback 60005]).
  assert (Sorted Z.le (concat (map GateLoop.readings js))) as Hsorted.
  { repeat constructor; lia. }
  assert (∃ s', GateLoop.exec js (GateLoop.init (Throttler.mk [] 1 0)) = Some s' ∧
                GateLoop.admitted s' = [5; 60005]) as (s' & Hexec & Hadm).
  { eexists. split; [vm_compute; reflexivity|]. vm_compute. reflexivity. }
  rewrite <-Hadm.
  exact (admissions_bounded_under_interleaving 1 js s' ltac:(lia) Hexec Hsorted 60005).
Defined.

Lemma backed_step (j : GateLoop.Job) (s s' : GateLoop.Sys) :
  GateLoop.step j s = Some s' → backed s → backed s'.
Proof.
  intros Hstep (Hsettled & Hposting & Hresponses).
  destruct j as [h d|now|h t2 t3|h result|t1 t2]; cbn [GateLoop.step] in Hstep.
  - destruct (s.(GateLoop.received) !! h) eqn:Hfresh; [done|]. injection Hstep as <-.
    split; [done|]. split; [|done]. simpl. intros h' data Hh'.
    destruct (Hposting h' data Hh') as [Hrec Hdec]. split; [|done].
    rewrite lookup_insert_ne; [done|]. intros ->. congruence.
  - destruct s.(GateLoop.processing) as [|h rest]; [done|].
    destruct (Throttler.canForward now _) as [r th']. injection Hstep as <-.
    split; [|split]; simpl.
    + intros h' r' Hh'. destruct (decide (h = h')) as [->|Hne].
      * rewrite lookup_insert_eq in Hh'. injection Hh' as <-. exists now.
        apply elem_of_app. right. by apply list_elem_of_singleton.
      * rewrite lookup_insert_ne in Hh' by done.
        destruct (Hsettled h' r' Hh') as [now' Hin]. exists now'. apply elem_of_app. by left.
    + intros h' data Hh'. destruct (Hposting h' data Hh') as [Hrec [now' Hin]].
      split; [done|]. exists now'. apply elem_of_app. by left.
    + intros h' res Hh'. destruct (Hresponses h' res Hh') as [now' Hin].
      exists now'. apply elem_of_app. by left.
  - destruct (s.(GateLoop.settled) !! h) as [r|] eqn:Hr; [|done].
    destruct (s.(GateLoop.received) !! h) as [d|] eqn:Hd; [|done].
    destruct (Hsettled h r Hr) as [now Hin].
    unfold Gate.afterCanForward in Hstep.
    destruct (Throttler.getCurrentCount t2 _) as [n2 th2].
    destruct (Throttler.getRemainingCapacity t3 th2) as [n3 th3].
    destruct r; simpl in Hstep; injection Hstep as <-; (split; [|split]); simpl.
    + intros h' r' [Hne Hh']%lookup_delete_Some. by apply Hsettled.
    + intros h' data Hh'. destruct (decide (h = h')) as [->|Hne].
      * rewrite lookup_insert_eq in Hh'. injection Hh' as <-. split; [done|]. by exists now.
      * rewrite lookup_insert_ne in Hh' by done. by apply Hposting.
    + done.
    + intros h' r' [Hne Hh']%lookup_delete_Some. by apply Hsettled.
    + done.
    + intros h' res Hh'. destruct (decide (h = h')) as [->|Hne].
      * rewrite lookup_insert_eq in Hh'. injection Hh' as <-. by exists now.
      * rewrite lookup_insert_ne in Hh' by done. by apply Hresponses.
  - destruct (s.(GateLoop.posting) !! h) as [d'|] eqn:Hd'; [|done].
    destruct (s.(GateLoop.received) !! h) as [d|] eqn:Hd; [|done].
    destruct (Hposting h d' Hd') as [_ [now Hin]].
    destruct result as [data|error]; simpl in Hstep; injection Hstep as <-;
      (split; [done|split]); simpl.
    + intros h' data' [Hne Hh']%lookup_delete_Some. by apply Hposting.
    + intros h' res Hh'. destruct (decide (h = h')) as [->|Hne].
      * rewrite lookup_insert_eq in Hh'. injection Hh' as <-. by exists now.
      * rewrite lookup_insert_ne in Hh' by done. by apply Hresponses.
    + intros h' data' [Hne Hh']%lookup_delete_Some. by apply Hposting.
    + intros h' res Hh'. destruct (decide (h = h')) as [->|Hne].
      * rewrite lookup_insert_eq in Hh'. injection Hh' as <-. by exists now.
      * rewrite lookup_insert_ne in Hh' by done. by apply Hresponses.
  - destruct (Gate.health t1 t2 _) as [res th']. by injection Hstep as <-.
Qed.

Lemma backed_exec (js : list GateLoop.Job) : ∀ s s',
  GateLoop.exec js s = Some s' → backed s → backed s'.
Proof.
  induction js as [|j js IH]; intros s s' Hexec Hs; simpl in Hexec.
  { by injection Hexec as <-. }
  destruct (GateLoop.step j s) as [s1|] eqn:Hstep; [|done].
  eapply IH; [done|]. by eapply backed_step.
Qed.

(** X3.  However the jobs interleave, the Throttle Service posts a request to
    the Echo Service only after its callback returned [true], and posts
    the body as it arrived; and it answers 429 only a request whose
    callback returned [false], and anything else (200, 500) only one whose
    callback returned [true]. *)
Theorem forwards_only_admitted (js : list GateLoop.Job) (th : Throttler.t) (s' : GateLoop.Sys) :
  GateLoop.exec js (GateLoop.init th) = Some s' →
  (∀ h data, s'.(GateLoop.posting) !! h = Some data →
     s'.(GateLoop.received) !! h = Some data ∧
     ∃ now, (h, now, true) ∈ s'.(GateLoop.decisions)) ∧
  (∀ h res, s'.(GateLoop.responses) !! h = Some res →
     ∃ now, (h, now, bool_decide (res.(status) ≠ 429)) ∈ s'.(GateLoop.decisions)).
Proof.
  intros Hexec. assert (backed (GateLoop.init th)) as Hinit.
  { by repeat split. }
  by destruct (backed_exec js _ s' Hexec Hinit) as (_ & ? & ?).
Qed.

Lemma forwards_only_admitted_witness :
  ∃ now, (2%nat, now, false) ∈ [(1%nat, 5, true); (2%nat, 7, false)].
Proof.
  pose (d := JObj [("id", JNum 1)]).
  pose (js := [GateLoop.Request 1 d; GateLoop.Request 2 d; GateLoop.Callback 5;
               GateLoop.Callback 7; GateLoop.Resume 2 8 8; GateLoop.Resume 1 9 9]).
  assert (∃ s', GateLoop.exec js (GateLoop.init (Throttler.mk [] 1 0)) = Some s' ∧
                s'.(GateLoop.decisions) = [(1%nat, 5, true); (2%nat, 7, false)] ∧
                s'.(GateLoop.responses) !! 2%nat = Some (mkResponse 429 (Gate.throttledBody 1)))
    as (s' & Hexec & Hdec & Hres).
  { eexists. split; [vm_compute; reflexivity|]. split; vm_compute; reflexivity. }
  rewrite <-Hdec.
  destruct (forwards_only_admitted js (Throttler.mk [] 1 0) s' Hexec) as [_ Hall].
  exact (Hall 2%nat _ Hres).
Defined.

Lemma chained_step (j : GateLoop.Job) (s s' : GateLoop.Sys) :
  GateLoop.step j s = Some s' →
  NoDup (chained s) ∧ (∀ h, h ∈ chained s → is_Some (s.(GateLoop.received) !! h)) →
  NoDup (chained s') ∧ (∀ h, h ∈ chained s' → is_Some (s'.(GateLoop.received) !! h)).
Proof.
  intros Hstep [Hnodup Hknown]. unfold chained in *.
  destruct j as [h d|now|h t2 t3|h result|t1 t2]; cbn [GateLoop.step] in Hstep.
  - destruct (s.(GateLoop.received) !! h) eqn:Hfresh; [done|]. injection Hstep as <-. simpl.
    rewrite app_assoc. split.
    + apply NoDup_app. split; [done|]. split; [|apply NoDup_singleton].
      intros h' Hh' ->%list_elem_of_singleton.
      destruct (Hknown h Hh') as [? ?]. congruence.
    + intros h' [Hh'| ->%list_elem_of_singleton]%elem_of_app.
      * destruct (decide (h = h')) as [->|Hne]; [by rewrite lookup_insert_eq|].
        rewrite lookup_insert_ne by done. by apply Hknown.
      * by rewrite lookup_insert_eq.
  - destruct s.(GateLoop.processing) as [|h rest]; [done|].
    destruct (Throttler.canForward now _) as [r th']. injection Hstep as <-. simpl.
    rewrite map_app, <-app_assoc. simpl. done.
  - destruct (s.(GateLoop.settled) !! h) as [r|]; [|done].
    destruct (s.(GateLoop.received) !! h) as [d|]; [|done].
    destruct (Gate.afterCanForward d r t2 t3 _) as [[[res|data] th'] lines];
      by injection Hstep as <-.
  - destruct (s.(GateLoop.posting) !! h) as [d'|]; [|done].
    destruct (s.(GateLoop.received) !! h) as [d|]; [|done].
    destruct (Gate.afterPost d result) as [res lines]. by injection Hstep as <-.
  - destruct (Gate.health t1 t2 _) as [res th']. by injection Hstep as <-.
Qed.

Lemma chained_exec (js : list GateLoop.Job) : ∀ s s',
  GateLoop.exec js s = Some s' →
  NoDup (chained s) ∧ (∀ h, h ∈ chained s → is_Some (s.(GateLoop.received) !! h)) →
  NoDup (chained s').
Proof.
  induction js as [|j js IH]; intros s s' Hexec Hs; simpl in Hexec.
  { injection Hexec as <-. by destruct Hs. }
  destruct (GateLoop.step j s) as [s1|] eqn:Hstep; [|done].
  eapply IH; [done|]. by eapply chained_step.
Qed.

Lemma run_app (ts1 ts2 : list Z) : ∀ th,
  Throttler.run (ts1 ++ ts2) th =
    ((Throttler.run ts1 th).1 ++ (Throttler.run ts2 (Throttler.run ts1 th).2).1,
     (Throttler.run ts2 (Throttler.run ts1 th).2).2).
Proof.
  induction ts1 as [|now ts1 IH]; intros th; simpl.
  { by destruct (Throttler.run ts2 th). }
  destruct (Throttler.canForward now th) as [r th1]. rewrite IH.
  by destruct (Throttler.run ts1 th1).
Qed.

Lemma agree_canForward (seen : list Z) (now : Z) (th thq : Throttler.t) :
  agree seen th thq → Forall (λ t, t ≤ now) seen →
  Throttler.canForward now th = Throttler.canForward now thq.
Proof.
  intros (Hcap & Htc & Hcalls) Hseen.
  by rewrite !canForward_eq, Hcap, Htc, (Hcalls now Hseen).
Qed.

(** A pruning read at [t] is not seen by any decision from [t] on. *)
Lemma agree_read (seen : list Z) (t : Z) (th thq : Throttler.t) :
  agree seen th thq →
  agree (seen ++ [t])
        (Throttler.mk (prune t th.(Throttler.calls)) th.(Throttler.maxCallsPerMinute)
                      th.(Throttler.throttledCount)) thq.
Proof.
  intros (Hcap & Htc & Hcalls). split; [done|]. split; [done|]. simpl.
  intros now [Hseen Ht]%Forall_app. apply Forall_inv in Ht.
  rewrite prune_prune by lia. by apply Hcalls.
Qed.

Lemma agree_reads (seen : list Z) (t t' : Z) (th thq : Throttler.t) :
  agree seen th thq →
  agree (seen ++ [t; t'])
        (Throttler.mk (prune t' (prune t th.(Throttler.calls))) th.(Throttler.maxCallsPerMinute)
                      th.(Throttler.throttledCount)) thq.
Proof.
  intros Hagree. change (seen ++ [t; t']) with (seen ++ ([t] ++ [t'])). rewrite app_assoc.
  by apply (agree_read (seen ++ [t]) t' (Throttler.mk (prune t th.(Throttler.calls)) _ _)),
           agree_read.
Qed.

Lemma agree_step (j : GateLoop.Job) (s s' : GateLoop.Sys) (seen : list Z) (thq : Throttler.t) :
  GateLoop.step j s = Some s' →
  Forall (λ t, Forall (λ x, x ≤ t) seen) (GateLoop.readings j) →
  agree seen s.(GateLoop.throttler) thq →
  ∃ ds, s'.(GateLoop.decisions) = s.(GateLoop.decisions) ++ ds ∧
    map (λ d : nat * Z * bool, d.2) ds
      = (Throttler.run (map (λ d : nat * Z * bool, d.1.2) ds) thq).1 ∧
    agree (seen ++ GateLoop.readings j) s'.(GateLoop.throttler)
          (Throttler.run (map (λ d : nat * Z * bool, d.1.2) ds) thq).2.
Proof.
  intros Hstep Hclock Hagree.
  destruct j as [h d|now|h t2 t3|h result|t1 t2];
    cbn [GateLoop.step GateLoop.readings] in *.
  - destruct (s.(GateLoop.received) !! h); [done|]. injection Hstep as <-.
    exists []. simpl. by rewrite !app_nil_r.
  - destruct s.(GateLoop.processing) as [|h rest]; [done|].
    apply Forall_inv in Hclock.
    rewrite (agree_canForward seen now _ thq) in Hstep by done.
    destruct (Throttler.canForward now thq) as [r thq'] eqn:Hdecision.
    injection Hstep as <-. exists [(h, now, r)]. simpl. rewrite Hdecision. simpl.
    by repeat split.
  - destruct (s.(GateLoop.settled) !! h) as [r|]; [|done].
    destruct (s.(GateLoop.received) !! h) as [d|]; [|done].
    pose proof (afterCanForward_throttler d r t2 t3 s.(GateLoop.throttler)) as Hth.
    destruct (Gate.afterCanForward d r t2 t3 _) as [[next th'] lines].
    simpl in Hth. subst th'. exists []. rewrite app_nil_r. split; [|split; [done|]].
    + by destruct next; injection Hstep as <-.
    + assert (s'.(GateLoop.throttler) =
                Throttler.mk (prune t3 (prune t2 s.(GateLoop.throttler).(Throttler.calls)))
                             s.(GateLoop.throttler).(Throttler.maxCallsPerMinute)
                             s.(GateLoop.throttler).(Throttler.throttledCount)) as ->.
      { by destruct next; injection Hstep as <-. }
      by apply agree_reads.
  - destruct (s.(GateLoop.posting) !! h) as [d'|]; [|done].
    destruct (s.(GateLoop.received) !! h) as [d|]; [|done].
    destruct (Gate.afterPost d result) as [res lines]. injection Hstep as <-.
    exists []. simpl. by rewrite !app_nil_r.
  - pose proof (health_throttler t1 t2 s.(GateLoop.throttler)) as Hth.
    destruct (Gate.health t1 t2 _) as [res th']. simpl in Hth. subst th'.
    injection Hstep as <-. exists []. simpl. rewrite app_nil_r.
    split; [done|]. split; [done|]. by apply agree_reads.
Qed.

Lemma agree_exec (js : list GateLoop.Job) : ∀ (s s' : GateLoop.Sys) seen thq,
  GateLoop.exec js s = Some s' →
  StronglySorted Z.le (seen ++ concat (map GateLoop.readings js)) →
  agree seen s.(GateLoop.throttler) thq →
  ∃ ds, s'.(GateLoop.decisions) = s.(GateLoop.decisions) ++ ds ∧
    map (λ d : nat * Z * bool, d.2) ds
      = (Throttler.run (map (λ d : nat * Z * bool, d.1.2) ds) thq).1 ∧
    agree (seen ++ concat (map GateLoop.readings js)) s'.(GateLoop.throttler)
          (Throttler.run (map (λ d : nat * Z * bool, d.1.2) ds) thq).2.
Proof.
  induction js as [|j js IH]; intros s s' seen thq Hexec Hsorted Hagree; simpl in *.
  { injection Hexec as <-. exists []. simpl. by rewrite !app_nil_r. }
  destruct (GateLoop.step j s) as [s1|] eqn:Hstep; [|done].
  assert (Forall (λ t, Forall (λ x, x ≤ t) seen) (GateLoop.readings j)) as Hclock.
  { apply Forall_forall. intros t Ht. apply Forall_forall. intros x Hx.
    eapply (StronglySorted_app_1_elem_of Z.le); [exact Hsorted|done|].
    apply elem_of_app. by left. }
  destruct (agree_step j s s1 seen thq Hstep Hclock Hagree) as (ds1 & Hds1 & Hrun1 & Hagree1).
  rewrite app_assoc in Hsorted.
  destruct (IH s1 s' _ _ Hexec Hsorted Hagree1) as (ds2 & Hds2 & Hrun2 & Hagree2).
  exists (ds1 ++ ds2). rewrite !map_app, run_app. simpl.
  split; [by rewrite Hds2, Hds1, app_assoc|].
  split; [by rewrite Hrun1, Hrun2|]. by rewrite app_assoc.
Qed.

(** X2.  With a clock that does not run backwards, however the jobs of the
    requests interleave, the callbacks decide exactly as the plain
    sequence of [canForward] calls at the callbacks' clock readings does,
    and the results go to the requests in their order of arrival.  The
    pruning reads of the handlers and of [GET /health] in between change
    no decision: the counter of the service and the counter of the plain
    sequence reject the same number of calls and decide alike at every
    later clock reading. *)
Theorem interleaving_decides_as_sequence (js : list GateLoop.Job) (th : Throttler.t)
    (s' : GateLoop.Sys) :
  GateLoop.exec js (GateLoop.init th) = Some s' →
  Sorted Z.le (concat (map GateLoop.readings js)) →
  let ts := map (λ d : nat * Z * bool, d.1.2) s'.(GateLoop.decisions) in
  map (λ d : nat * Z * bool, d.2) s'.(GateLoop.decisions) = (Throttler.run ts th).1 ∧
  map (λ d : nat * Z * bool, d.1.1) s'.(GateLoop.decisions) ++ s'.(GateLoop.processing)
    = GateLoop.arrivals js ∧
  s'.(GateLoop.throttler).(Throttler.throttledCount)
    = (Throttler.run ts th).2.(Throttler.throttledCount) ∧
  ∀ now, Forall (λ t, t ≤ now) (concat (map GateLoop.readings js)) →
    Throttler.canForward now s'.(GateLoop.throttler)
      = Throttler.canForward now (Throttler.run ts th).2.
Proof.
  intros Hexec Hsorted ts. apply (Sorted_StronglySorted Z.le) in Hsorted.
  destruct (agree_exec js _ s' [] th Hexec Hsorted) as (ds & Hds & Hrun & Hagree); [done|].
  simpl in Hds, Hagree. subst ts. rewrite Hds.
  split; [done|]. split; [|split].
  - rewrite <-Hds. by rewrite (decisions_in_arrival_order js _ s' Hexec).
  - by destruct Hagree as (_ & ? & _).
  - intros now Hnow. by eapply agree_canForward.
Qed.

Lemma interleaving_decides_as_sequence_witness :
  ∃ s',
    GateLoop.exec
      [GateLoop.Request 1 JNull; GateLoop.Request 2 JNull; GateLoop.Callback 5;
       GateLoop.Health 60004 60004; GateLoop.Resume 1 60005 60005; GateLoop.Callback 60006]
      (GateLoop.init (Throttler.mk [] 1 0)) = Some s' ∧
    map (λ d : nat * Z * bool, d.2) s'.(GateLoop.decisions)
      = (Throttler.run [5; 60006] (Throttler.mk [] 1 0)).1.
Proof.
  pose (js := [GateLoop.Request 1 JNull; GateLoop.Request 2 JNull; GateLoop.Callback 5;
               GateLoop.Health 60004 60004; GateLoop.Resume 1 60005 60005;
               GateLoop.Callback 60006]).
  assert (Sorted Z.le (concat (map GateLoop.readings js))) as Hsorted.
  { repeat constructor; lia. }
  assert (∃ s', GateLoop.exec js (GateLoop.init (Throttler.mk [] 1 0)) = Some s' ∧
                map (λ d : nat * Z * bool, d.1.2) s'.(GateLoop.decisions) = [5; 60006])
    as (s' & Hexec & Hts).
  { eexists. split; [vm_compute; reflexivity|]. vm_compute. reflexivity. }
  exists s'. split; [exact Hexec|]. rewrite <-Hts.
  exact (proj1 (interleaving_decides_as_sequence js (Throttler.mk [] 1 0) s' Hexec Hsorted)).
Defined.

(** * Further properties of the handlers *)

(** X11.  The two revisions of [POST /forward], with the handler's clock
    readings all equal to [t]: they make the same decision, leave the same
    counter and answer the same status; the first revision logs the count
    taken before the decision, the later one the count taken after it,
    which is one more when the request was admitted. *)
Theorem later_revision_counts_the_request (receivedData : Json) (t : Z)
    (post : Json → PostResult) (th : Throttler.t) :
  let n := Z.of_nat (length (prune t th.(Throttler.calls))) in
  let n' := if (Throttler.canForward t th).1 then n + 1 else n in
  let cap := th.(Throttler.maxCallsPerMinute) in
  (GateV1.forward receivedData t t t post th).1.2 = (Throttler.canForward t th).2 ∧
  (Gate.forward receivedData t t t post th).1.2 = (Throttler.canForward t th).2 ∧
  (GateV1.forward receivedData t t t post th).1.1.(status)
    = (Gate.forward receivedData t t t post th).1.1.(status) ∧
  head (GateV1.forward receivedData t t t post th).2
    = Some (GateV1.Received receivedData n (Z.max 0 (cap - n))) ∧
  head (Gate.forward receivedData t t t post th).2
    = Some (Gate.Received (Gate.requestId receivedData) receivedData n' (Z.max 0 (cap - n'))).
Proof.
  intros n n' cap. subst n n' cap.
  assert (∀ cs, filter (λ timestamp, timestamp > t - 60000) cs = prune t cs) as Hfold by done.
  unfold GateV1.forward, Gate.forward, Gate.afterCanForward,
    Throttler.getRemainingCapacity, Throttler.getCurrentCount.
  rewrite !canForward_eq. simpl. rewrite !Hfold, !prune_idem.
  case_bool_decide as Hroom; simpl; rewrite ?Hfold, ?prune_snoc, ?prune_idem.
  - rewrite length_app. simpl.
    replace (Z.of_nat (length (prune t th.(Throttler.calls)) + 1))
      with (Z.of_nat (length (prune t th.(Throttler.calls))) + 1) by lia.
    by destruct (post receivedData).
  - done.
Qed.

Lemma prune_earlier (t1 t2 : Z) (cs : list Z) :
  t2 ≤ t1 → prune t2 (prune t1 cs) = prune t1 cs.
Proof.
  intros Hle. apply prune_all, Forall_forall. intros x [_ Hx]%prune_elem. lia.
Qed.

(** X10.  [GET /health] of either service, in any state the service can reach:
    the two numbers of the snapshot lie between 0 and the limit, they add
    up to at least the limit, and to exactly the limit when the clock did
    not advance between the two reads. *)
Theorem health_balance (t1 t2 : Z) (th : Throttler.t) (rl : RateLimiter.t) :
  reachable 4096 th → reachable_limiter 512 rl →
  (∃ n r,
     field "currentCalls" (Gate.health t1 t2 th).1.(body) = Some (JNum n) ∧
     field "remainingCapacity" (Gate.health t1 t2 th).1.(body) = Some (JNum r) ∧
     0 ≤ n ≤ 4096 ∧ 0 ≤ r ≤ 4096 ∧ 4096 ≤ n + r ∧ (t2 ≤ t1 → n + r = 4096)) ∧
  (∃ n r,
     field "currentCalls" (Sink.health t1 t2 rl).1.(body) = Some (JNum n) ∧
     field "remainingCapacity" (Sink.health t1 t2 rl).1.(body) = Some (JNum r) ∧
     0 ≤ n ≤ 512 ∧ 0 ≤ r ≤ 512 ∧ 512 ≤ n + r ∧ (t2 ≤ t1 → n + r = 512)).
Proof.
  intros Hth Hrl.
  destruct (reachable_bounded 4096 th ltac:(lia) Hth) as [Hcap Hlen].
  destruct (reachable_limiter_bounded 512 rl ltac:(lia) Hrl) as [Hcap' Hlen'].
  assert (∀ cs, filter (λ timestamp, timestamp > t1 - 60000) cs = prune t1 cs) as Hfold1 by done.
  assert (∀ cs, filter (λ timestamp, timestamp > t2 - 60000) cs = prune t2 cs) as Hfold2 by done.
  split.
  - eexists _, _. split; [reflexivity|]. split; [reflexivity|]. simpl.
    rewrite Hfold1, Hfold2, Hcap.
    pose proof (prune_length t1 th.(Throttler.calls)).
    pose proof (prune_length t2 (prune t1 th.(Throttler.calls))).
    repeat split; try lia. intros Hle. rewrite prune_earlier by done. lia.
  - eexists _, _. split; [reflexivity|]. split; [reflexivity|]. simpl.
    rewrite Hfold1, Hfold2, Hcap'.
    pose proof (prune_length t1 rl.(RateLimiter.calls)).
    pose proof (prune_length t2 (prune t1 rl.(RateLimiter.calls))).
    repeat split; try lia. intros Hle. rewrite prune_earlier by done. lia.
Qed.

Lemma health_balance_witness :
  field "remainingCapacity" (Gate.health 7 7 (Throttler.canForward 5 Throttler.new).2).1.(body)
  = Some (JNum 4095).
Proof.
  destruct (health_balance 7 7 (Throttler.canForward 5 Throttler.new).2 RateLimiter.new
              (reach_canForward 4096 5 _ (reach_new 4096)) (reachl_new 512))
    as [(n & r & Hn & Hr & _ & _ & _ & Hsum) _].
  rewrite Hr. injection Hn as <-. specialize (Hsum ltac:(lia)).
  do 2 f_equal. lia.
Defined.

Lemma makeCall_body (env : Caller.Env) (callId : Z) :
  (Caller.makeCall env callId).(Caller.callData) = callBody callId.
Proof. unfold Caller.makeCall. by destruct (Caller.post env _). Qed.

(** X12.  [receivedData.id || "unknown"]: the id under which a request is logged
    is the body's [id] when that is truthy and ["unknown"] otherwise, so it
    is never falsy; for a [callId] that is a safe integer, the body posted
    by [makeCall] is [{id: callId, data: String(callId)}] and is logged
    under its own [callId], except for [callId] 0, which is logged as
    ["unknown"]. *)
Theorem requestId_of_call (receivedData : Json) (env : Caller.Env) (callId : Z) :
  isSafeInteger callId = true →
  truthy (Some (Gate.requestId receivedData)) = true ∧
  (truthy (field "id" receivedData) = true →
     field "id" receivedData = Some (Gate.requestId receivedData)) ∧
  (truthy (field "id" receivedData) = false →
     Gate.requestId receivedData = JStr "unknown") ∧
  (Caller.makeCall env callId).(Caller.callData) = callBody callId ∧
  Gate.requestId (Caller.makeCall env callId).(Caller.callData) =
    (if bool_decide (callId = 0) then JStr "unknown" else JNum callId).
Proof.
  intros _. pose proof (makeCall_body env callId) as Hbody.
  split; [|split; [|split; [|split]]].
  - unfold Gate.requestId.
    destruct (truthy (field "id" receivedData)) eqn:Htruthy; [|done].
    by destruct (field "id" receivedData).
  - unfold Gate.requestId. intros Htruthy. rewrite Htruthy.
    by destruct (field "id" receivedData).
  - unfold Gate.requestId. by intros ->.
  - done.
  - rewrite Hbody. unfold Gate.requestId, callBody. simpl.
    repeat case_bool_decide; done.
Qed.

Lemma requestId_of_call_witness :
  Gate.requestId
    (Caller.makeCall (Caller.mkEnv (λ data, Resolved data) (λ _, 0) (λ _, 5)) 17).(Caller.callData)
  = JNum 17.
Proof.
  exact (proj2 (proj2 (proj2 (proj2
    (requestId_of_call JNull (Caller.mkEnv (λ data, Resolved data) (λ _, 0) (λ _, 5)) 17
       eq_refl))))).
Defined.

(** * Further properties of the Caller Service *)

Lemma loop_calls (env : Caller.Env) (n : nat) : ∀ i startId callPromises,
  Caller.loop env n i startId callPromises =
    callPromises ++ map (Caller.makeCall env) (seqZ (startId + i) (Z.of_nat n)).
Proof.
  induction n as [|n IH]; intros i startId callPromises.
  { cbn [Caller.loop]. rewrite seqZ_nil by done. by rewrite app_nil_r. }
  cbn [Caller.loop]. rewrite IH.
  rewrite (seqZ_cons (startId + i)) by lia. cbn [map].
  rewrite <-app_assoc. cbn [app]. do 3 f_equal. f_equal; lia.
Qed.

(** X13.  For safe integers [count], [startId] and [startId + count],
    [makeCalls(count, startId)] makes the calls [startId], [startId + 1],
    ..., [startId + count - 1], one each and in this order, whatever any of
    them is answered; it posts [{id, data: String(id)}] for each, and makes
    no call at all when [count] is zero or negative. *)
Theorem makeCalls_consecutive (env : Caller.Env) (count startId : Z) :
  isSafeInteger count = true → isSafeInteger startId = true →
  isSafeInteger (startId + count) = true →
  Caller.makeCalls env count startId = map (Caller.makeCall env) (seqZ startId count) ∧
  map Caller.callData (Caller.makeCalls env count startId) = map callBody (seqZ startId count) ∧
  length (Caller.makeCalls env count startId) = Z.to_nat count ∧
  (count ≤ 0 → Caller.makeCalls env count startId = []).
Proof.
  intros _ _ _.
  assert (Caller.makeCalls env count startId = map (Caller.makeCall env) (seqZ startId count))
    as Hcalls.
  { unfold Caller.makeCalls. rewrite loop_calls. cbn [app].
    destruct (decide (0 ≤ count)) as [Hpos|Hneg].
    - do 2 f_equal; lia.
    - rewrite (seqZ_nil _ count) by lia. by replace (Z.to_nat count) with O by lia. }
  rewrite Hcalls. split; [done|]. split; [|split].
  - rewrite <-list_fmap_compose. apply list_fmap_ext. intros _ callId _. apply makeCall_body.
  - by rewrite length_map, length_seqZ.
  - intros Hle. by rewrite seqZ_nil.
Qed.

Lemma makeCalls_consecutive_witness :
  map Caller.callData
    (Caller.makeCalls (Caller.mkEnv (λ data, Resolved data) (λ _, 0) (λ _, 5)) 3 17)
  = map callBody (seqZ 17 3).
Proof.
  exact (proj1 (proj2
    (makeCalls_consecutive (Caller.mkEnv (λ data, Resolved data) (λ _, 0) (λ _, 5)) 3 17
       eq_refl eq_refl eq_refl))).
Defined.

Lemma range_minutes :
  range 1 69904 = seqZ 1 16 ++ seqZ 17 256 ++ seqZ 273 4096 ++ seqZ 4369 65536.
Proof.
  unfold range.
  replace (69904 - 1 + 1) with (16 + (256 + (4096 + 65536))) by lia.
  rewrite seqZ_app by lia. rewrite (seqZ_app (1 + 16)) by lia.
  rewrite (seqZ_app (1 + 16 + 256)) by lia.
  repeat (f_equal; try lia).
Qed.

Lemma makeCalls_calls (env : Caller.Env) (count startId : Z) :
  0 ≤ count →
  Caller.makeCalls env count startId = map (Caller.makeCall env) (seqZ startId count).
Proof.
  intros Hcount. unfold Caller.makeCalls. rewrite loop_calls. cbn [app].
  do 2 f_equal; lia.
Qed.

Lemma calls_bodies (env : Caller.Env) (ids : list Z) :
  map Caller.callData (map (Caller.makeCall env) ids) = map callBody ids.
Proof.
  induction ids as [|callId ids IH]; [reflexivity|].
  cbn [map]. rewrite makeCall_body, IH. reflexivity.
Qed.

Lemma main_minutes (env : Caller.Env) (minuteDuration : Z → Z) :
  (Caller.main env minuteDuration).(Caller.minutes) =
    [Caller.makeCalls env 16 1; Caller.makeCalls env 256 17;
     Caller.makeCalls env 4096 273; Caller.makeCalls env 65536 4369].
Proof. reflexivity. Qed.

(** X14.  No id is used twice in a run of [main]: over the four minutes together
    the ids posted are 1, 2, ..., 69904 in this order, each once, and no
    two calls post the same body. *)
Theorem ids_never_reused (env : Caller.Env) (minuteDuration : Z → Z) :
  concat (Caller.issued (Caller.main env minuteDuration))
    = map (λ x, Some (JNum x)) (range 1 69904) ∧
  NoDup (concat (Caller.issued (Caller.main env minuteDuration))) ∧
  NoDup (map Caller.callData (concat (Caller.main env minuteDuration).(Caller.minutes))).
Proof.
  assert (concat (Caller.issued (Caller.main env minuteDuration))
            = map (λ x, Some (JNum x)) (range 1 69904)) as Hids.
  { unfold Caller.issued. rewrite main_minutes. cbn [map concat].
    rewrite !makeCalls_ids by lia. rewrite app_nil_r, range_minutes, !map_app.
    reflexivity. }
  assert (map Caller.callData (concat (Caller.main env minuteDuration).(Caller.minutes))
            = map callBody (range 1 69904)) as Hbodies.
  { rewrite main_minutes. cbn [concat].
    rewrite !makeCalls_calls by lia.
    rewrite app_nil_r, !map_app, !calls_bodies, range_minutes, !map_app.
    reflexivity. }
  split; [exact Hids|]. split.
  - rewrite Hids. apply NoDup_fmap_2; [|apply NoDup_seqZ].
    intros x y Hxy. injection Hxy as ->. reflexivity.
  - rewrite Hbodies. apply NoDup_fmap_2; [|apply NoDup_seqZ].
    intros x y Hxy. injection Hxy as -> _. reflexivity.
Qed.

(** X15.  Between two minutes [main] never waits a negative time: the calls of
    a minute and the wait after it last at least 60000 ms together,
    exactly 60000 ms when the calls took less, and there is no wait at all
    when they took 60000 ms or more.  There are three waits: none follows
    the fourth minute. *)
Theorem waits_fill_the_minute (env : Caller.Env) (minuteDuration : Z → Z) :
  length (Caller.main env minuteDuration).(Caller.waits) = 3%nat ∧
  Forall (λ kw : Z * Z,
            0 ≤ kw.2 ∧
            60000 ≤ minuteDuration kw.1 + kw.2 ∧
            (minuteDuration kw.1 < 60000 → minuteDuration kw.1 + kw.2 = 60000) ∧
            (60000 ≤ minuteDuration kw.1 → kw.2 = 0))
         (zip [1; 2; 3] (Caller.main env minuteDuration).(Caller.waits)).
Proof.
  unfold Caller.main. cbn [Caller.waits]. split; [done|].
  repeat constructor; simpl; lia.
Qed.

(** * The two services in a row *)

Section cascade.

Variable settle : Response → PostResult.

(** axios resolves a 200 answer with its body and rejects a 429 answer. *)
Hypothesis settle_ok : ∀ data, settle (mkResponse 200 data) = Resolved data.
Hypothesis settle_overload : ∀ b, ∃ error, settle (mkResponse 429 b) = Rejected error.

(** The capacities of the two services, and the window [(w, w + 60000]]
    in which every clock reading lies. *)
Variables cg cs w : Z.

Implicit Types (now : Z) (calls : list Z) (th : Throttler.t) (rl : RateLimiter.t).
Implicit Types (g : GateLoop.Sys) (s : Cascade.Sys) (h : nat).

Lemma in_window_prune now calls :
  w < now ∧ now ≤ w + 60000 →
  Forall (λ a, w < a ∧ a ≤ w + 60000) calls → prune now calls = calls.
Proof.
  intros Hnow Hcalls. apply prune_all. eapply Forall_impl; [exact Hcalls|]. simpl. lia.
Qed.

Lemma echo_in_window (receivedData : Json) (u1 u2 u3 : Z) rl :
  Forall (λ a, w < a ∧ a ≤ w + 60000) [u1; u2; u3] →
  Forall (λ a, w < a ∧ a ≤ w + 60000) rl.(RateLimiter.calls) →
  (Sink.echo receivedData u1 u2 u3 rl).1 =
    if bool_decide (Z.of_nat (length rl.(RateLimiter.calls)) < rl.(RateLimiter.maxCallsPerMinute))
    then (mkResponse 200 receivedData,
          RateLimiter.mk (rl.(RateLimiter.calls) ++ [u3]) rl.(RateLimiter.maxCallsPerMinute))
    else (mkResponse 429 (JObj [("message", JStr "Exceeding Limit")]), rl).
Proof.
  intros Hclock Hcalls.
  apply Forall_cons in Hclock as [Hu1 Hclock]. apply Forall_cons in Hclock as [Hu2 Hclock].
  apply Forall_inv in Hclock as Hu3.
  rewrite echo_answer. cbv zeta. rewrite isAllowed_eq.
  unfold RateLimiter.getRemainingCapacity, RateLimiter.getCurrentCount. simpl.
  change (filter (λ timestamp, timestamp > u1 - 60000) rl.(RateLimiter.calls))
    with (prune u1 rl.(RateLimiter.calls)).
  rewrite (in_window_prune u1) by done.
  change (filter (λ timestamp, timestamp > u2 - 60000) rl.(RateLimiter.calls))
    with (prune u2 rl.(RateLimiter.calls)).
  rewrite (in_window_prune u2) by done.
  rewrite (in_window_prune u3) by done.
  case_bool_decide; simpl; [done|]. by destruct rl.
Qed.

Lemma sink_health_in_window (u1 u2 : Z) rl :
  Forall (λ a, w < a ∧ a ≤ w + 60000) [u1; u2] →
  Forall (λ a, w < a ∧ a ≤ w + 60000) rl.(RateLimiter.calls) →
  (Sink.health u1 u2 rl).2 = rl.
Proof.
  intros Hclock Hcalls.
  apply Forall_cons in Hclock as [Hu1 Hclock]. apply Forall_inv in Hclock as Hu2.
  unfold Sink.health, RateLimiter.getRemainingCapacity, RateLimiter.getCurrentCount. simpl.
  change (filter (λ timestamp, timestamp > u1 - 60000) rl.(RateLimiter.calls))
    with (prune u1 rl.(RateLimiter.calls)).
  rewrite (in_window_prune u1) by done.
  change (filter (λ timestamp, timestamp > u2 - 60000) rl.(RateLimiter.calls))
    with (prune u2 rl.(RateLimiter.calls)).
  rewrite (in_window_prune u2) by done. by destruct rl.
Qed.

Lemma afterCanForward_next (receivedData : Json) (r : bool) (t2 t3 : Z) th :
  (Gate.afterCanForward receivedData r t2 t3 th).1.1 =
    if r then inr receivedData
    else inl (mkResponse 429 (Gate.throttledBody th.(Throttler.throttledCount))).
Proof. unfold Gate.afterCanForward. simpl. by destruct r. Qed.

(** ** What one job of the Throttle Service changes *)

Lemma gate_exec_app (js1 js2 : list GateLoop.Job) : ∀ g,
  GateLoop.exec (js1 ++ js2) g = GateLoop.exec js1 g ≫= GateLoop.exec js2.
Proof.
  induction js1 as [|j js1 IH]; intros g; simpl; [done|].
  destruct (GateLoop.step j g); simpl; [apply IH|done].
Qed.

Lemma step_received (j : GateLoop.Job) g g' h (d : Json) :
  GateLoop.step j g = Some g' →
  g.(GateLoop.received) !! h = Some d → g'.(GateLoop.received) !! h = Some d.
Proof.
  intros Hstep Hd.
  destruct j as [h0 d0|now|h0 t2 t3|h0 result|t1 t2]; cbn [GateLoop.step] in Hstep.
  - destruct (g.(GateLoop.received) !! h0) eqn:Hfresh; [done|]. injection Hstep as <-. simpl.
    rewrite lookup_insert_ne; [done|]. intros ->. congruence.
  - destruct g.(GateLoop.processing) as [|h1 rest]; [done|].
    destruct (Throttler.canForward now _) as [r th']. by injection Hstep as <-.
  - destruct (g.(GateLoop.settled) !! h0) as [r|]; [|done].
    destruct (g.(GateLoop.received) !! h0) as [d1|]; [|done].
    destruct (Gate.afterCanForward d1 r t2 t3 _) as [[[res|data] th'] lines];
      by injection Hstep as <-.
  - destruct (g.(GateLoop.posting) !! h0) as [d'|]; [|done].
    destruct (g.(GateLoop.received) !! h0) as [d1|]; [|done].
    destruct (Gate.afterPost d1 result) as [res lines]. by injection Hstep as <-.
  - destruct (Gate.health t1 t2 _) as [res th']. by injection Hstep as <-.
Qed.

Lemma step_decisions (j : GateLoop.Job) g g' (d : nat * Z * bool) :
  GateLoop.step j g = Some g' →
  d ∈ g.(GateLoop.decisions) → d ∈ g'.(GateLoop.decisions).
Proof.
  intros Hstep Hd.
  destruct j as [h0 d0|now|h0 t2 t3|h0 result|t1 t2]; cbn [GateLoop.step] in Hstep.
  - destruct (g.(GateLoop.received) !! h0); [done|]. by injection Hstep as <-.
  - destruct g.(GateLoop.processing) as [|h1 rest]; [done|].
    destruct (Throttler.canForward now _) as [r th']. injection Hstep as <-. simpl.
    apply elem_of_app. by left.
  - destruct (g.(GateLoop.settled) !! h0) as [r|]; [|done].
    destruct (g.(GateLoop.received) !! h0) as [d1|]; [|done].
    destruct (Gate.afterCanForward d1 r t2 t3 _) as [[[res|data] th'] lines];
      by injection Hstep as <-.
  - destruct (g.(GateLoop.posting) !! h0) as [d'|]; [|done].
    destruct (g.(GateLoop.received) !! h0) as [d1|]; [|done].
    destruct (Gate.afterPost d1 result) as [res lines]. by injection Hstep as <-.
  - destruct (Gate.health t1 t2 _) as [res th']. by injection Hstep as <-.
Qed.

(** An answer is new only where a handler ends: with 429 after its
    callback, or as [afterPost] makes it when its post ends. *)
Lemma step_responses (j : GateLoop.Job) g g' h (res : Response) :
  GateLoop.step j g = Some g' →
  g'.(GateLoop.responses) !! h = Some res →
  g.(GateLoop.responses) !! h = Some res ∨
  res.(status) = 429 ∨
  ∃ result d, j = GateLoop.PostSettled h result ∧
    g.(GateLoop.received) !! h = Some d ∧ res = (Gate.afterPost d result).1.
Proof.
  intros Hstep Hres.
  destruct j as [h0 d0|now|h0 t2 t3|h0 result|t1 t2]; cbn [GateLoop.step] in Hstep.
  - destruct (g.(GateLoop.received) !! h0); [done|]. injection Hstep as <-. by left.
  - destruct g.(GateLoop.processing) as [|h1 rest]; [done|].
    destruct (Throttler.canForward now _) as [r th']. injection Hstep as <-. by left.
  - destruct (g.(GateLoop.settled) !! h0) as [r|]; [|done].
    destruct (g.(GateLoop.received) !! h0) as [d1|]; [|done].
    pose proof (afterCanForward_next d1 r t2 t3 g.(GateLoop.throttler)) as Hnext.
    destruct (Gate.afterCanForward d1 r t2 t3 _) as [[[res0|data] th'] lines];
      injection Hstep as <-; simpl in *; [|by left].
    destruct (decide (h0 = h)) as [->|Hne].
    + rewrite lookup_insert_eq in Hres. injection Hres as <-. right. left.
      destruct r; [done|]. by injection Hnext as ->.
    + rewrite lookup_insert_ne in Hres by done. by left.
  - destruct (g.(GateLoop.posting) !! h0) as [d'|]; [|done].
    destruct (g.(GateLoop.received) !! h0) as [d1|] eqn:Hd1; [|done].
    destruct (Gate.afterPost d1 result) as [res0 lines] eqn:Hafter.
    injection Hstep as <-. simpl in *.
    destruct (decide (h0 = h)) as [->|Hne].
    + rewrite lookup_insert_eq in Hres. injection Hres as <-. right. right.
      exists result, d1. by rewrite Hafter.
    + rewrite lookup_insert_ne in Hres by done. by left.
  - destruct (Gate.health t1 t2 _) as [res0 th']. injection Hstep as <-. by left.
Qed.

(** Within the window the counter only fills up: the first [cg]
    callbacks admit, the later ones are turned away. *)
Lemma gate_filled_step (j : GateLoop.Job) g g' :
  GateLoop.step j g = Some g' →
  Forall (λ a, w < a ∧ a ≤ w + 60000) (GateLoop.readings j) →
  gate_filled cg w g → gate_filled cg w g'.
Proof.
  intros Hstep Hclock (Hcap & Hwin & Hlen & Htc & Hdec).
  destruct j as [h d|now|h t2 t3|h result|t1 t2];
    cbn [GateLoop.step GateLoop.readings] in *.
  - destruct (g.(GateLoop.received) !! h); [done|]. by injection Hstep as <-.
  - destruct g.(GateLoop.processing) as [|h rest]; [done|].
    apply Forall_inv in Hclock.
    rewrite canForward_eq, in_window_prune, Hcap in Hstep by done.
    case_bool_decide as Hroom; injection Hstep as <-; unfold gate_filled; simpl;
      rewrite !length_app; simpl.
    + split; [done|]. split; [apply Forall_app; split; [done|by apply Forall_singleton]|].
      split; [lia|]. split; [lia|].
      intros i d [[_ Hold]|[-> <-]]%lookup_snoc_Some; [by apply Hdec|].
      simpl. rewrite bool_decide_eq_true_2; [done|lia].
    + split; [done|]. split; [done|]. split; [lia|]. split; [lia|].
      intros i d [[_ Hold]|[-> <-]]%lookup_snoc_Some; [by apply Hdec|].
      simpl. rewrite bool_decide_eq_false_2; [done|lia].
  - destruct (g.(GateLoop.settled) !! h) as [r|]; [|done].
    destruct (g.(GateLoop.received) !! h) as [d|]; [|done].
    apply Forall_cons in Hclock as [Ht2 Hclock]. apply Forall_inv in Hclock as Ht3.
    pose proof (afterCanForward_throttler d r t2 t3 g.(GateLoop.throttler)) as Hth.
    rewrite (in_window_prune t2), (in_window_prune t3) in Hth by done.
    destruct (Gate.afterCanForward d r t2 t3 _) as [[next th'] lines].
    simpl in Hth. subst th'. by destruct next; injection Hstep as <-.
  - destruct (g.(GateLoop.posting) !! h) as [d'|]; [|done].
    destruct (g.(GateLoop.received) !! h) as [d|]; [|done].
    destruct (Gate.afterPost d result) as [res lines]. by injection Hstep as <-.
  - apply Forall_cons in Hclock as [Ht1 Hclock]. apply Forall_inv in Hclock as Ht2.
    pose proof (health_throttler t1 t2 g.(GateLoop.throttler)) as Hth.
    rewrite (in_window_prune t1), (in_window_prune t2) in Hth by done.
    destruct (Gate.health t1 t2 _) as [res th']. simpl in Hth. subst th'.
    by injection Hstep as <-.
Qed.

(** ** What one job of the two services keeps *)

(** A job of the Throttle Service, the end of a post included: every
    answer it adds to a failed or delivered post is accounted for. *)
Lemma relayed_gate (j : GateLoop.Job) s g' (answers' : gmap nat Response) (failed' : list nat) :
  GateLoop.step j s.(Cascade.gate) = Some g' →
  (∀ h answer, answers' !! h = Some answer → s.(Cascade.answers) !! h = Some answer) →
  (∀ h, h ∈ s.(Cascade.failed) → h ∈ failed') →
  (∀ h result d, j = GateLoop.PostSettled h result →
     s.(Cascade.gate).(GateLoop.received) !! h = Some d →
     (h ∈ failed' ∧ (Gate.afterPost d result).1.(status) = 500) ∨
     (∃ k : nat, s.(Cascade.echoed) !! k = Some h ∧
        if bool_decide (Z.of_nat k < cs)
        then (Gate.afterPost d result).1.(status) = 200 ∧ (Gate.afterPost d result).1.(body) = d
        else (Gate.afterPost d result).1.(status) = 500)) →
  relayed cs w s →
  relayed cs w (Cascade.mkSys g' s.(Cascade.rateLimiter) s.(Cascade.inflight) answers'
                              s.(Cascade.echoed) failed').
Proof.
  intros Hstep Hsub Hfailed Hsettled
    (Hbacked & Hcap & Hwin & Hlen & Hinflight & Hechoed & Hanswers & Hresponses).
  split; [by eapply backed_step|]. simpl. do 3 (split; [done|]).
  split; [|split; [|split]].
  - intros h data Hh. destruct (Hinflight h data Hh) as [Hrec [now Hin]].
    split; [by eapply step_received|]. exists now. by eapply step_decisions.
  - intros h Hh. destruct (Hechoed h Hh) as [now Hin]. exists now. by eapply step_decisions.
  - intros h answer Hh%Hsub. destruct (Hanswers h answer Hh) as (k & data & Hk & Hrec & ->).
    exists k, data. split; [done|]. split; [by eapply step_received|done].
  - intros h res Hh Hne.
    destruct (step_responses j _ _ h res Hstep Hh) as [Hold|[H429|(result & d & -> & Hd & ->)]];
      [|done|].
    + destruct (Hresponses h res Hold Hne) as [[Hf Hst]|(k & Hk & Hcase)].
      { left. split; [by apply Hfailed|done]. }
      right. exists k. split; [done|]. case_bool_decide; [|done].
      destruct Hcase as [Hst Hrec]. split; [done|]. by eapply step_received.
    + destruct (Hsettled h result d eq_refl Hd) as [Hf|(k & Hk & Hcase)]; [by left|].
      right. exists k. split; [done|]. case_bool_decide; [|done].
      destruct Hcase as [Hst Hbody]. split; [done|]. rewrite Hbody. by eapply step_received.
Qed.

(** A handler that went on to post: its body is under way. *)
Lemma relayed_post s h (data : Json) :
  s.(Cascade.gate).(GateLoop.posting) !! h = Some data →
  relayed cs w s →
  relayed cs w (Cascade.mkSys s.(Cascade.gate) s.(Cascade.rateLimiter)
                              (<[h := data]> s.(Cascade.inflight)) s.(Cascade.answers)
                              s.(Cascade.echoed) s.(Cascade.failed)).
Proof.
  intros Hposting (Hbacked & Hcap & Hwin & Hlen & Hinflight & Hrest).
  split; [done|]. simpl. do 3 (split; [done|]). split; [|done].
  intros h' data' Hh'. destruct (decide (h = h')) as [->|Hne].
  - rewrite lookup_insert_eq in Hh'. injection Hh' as <-.
    destruct Hbacked as (_ & Hp & _). by apply Hp.
  - rewrite lookup_insert_ne in Hh' by done. by apply Hinflight.
Qed.

(** The Echo Service handles a post: the [k]-th of the window is echoed
    when [k < cs] and turned away otherwise. *)
Lemma relayed_echo s s' h (u1 u2 u3 : Z) :
  Cascade.step settle (Cascade.Echo h u1 u2 u3) s = Some s' →
  Forall (λ a, w < a ∧ a ≤ w + 60000) [u1; u2; u3] →
  relayed cs w s → relayed cs w s'.
Proof.
  intros Hstep Hclock
    (Hbacked & Hcap & Hwin & Hlen & Hinflight & Hechoed & Hanswers & Hresponses).
  cbn [Cascade.step] in Hstep.
  destruct (s.(Cascade.inflight) !! h) as [data|] eqn:Hdata; [|done].
  pose proof (echo_in_window data u1 u2 u3 _ Hclock Hwin) as Hecho.
  destruct (Sink.echo data u1 u2 u3 _) as [[answer rl'] lines]. simpl in Hecho.
  injection Hstep as <-.
  destruct (Hinflight h data Hdata) as [Hrec Hdec].
  rewrite Hcap in Hecho.
  assert (Forall (λ a, w < a ∧ a ≤ w + 60000) [u3]) as Hu3.
  { by do 2 apply Forall_cons in Hclock as [_ Hclock]. }
  assert (answer = echo_answer_at cs (length s.(Cascade.echoed)) data ∧
          rl'.(RateLimiter.maxCallsPerMinute) = cs ∧
          Forall (λ a, w < a ∧ a ≤ w + 60000) rl'.(RateLimiter.calls) ∧
          Z.of_nat (length rl'.(RateLimiter.calls))
            = Z.of_nat (length (s.(Cascade.echoed) ++ [h])) `min` cs)
    as (-> & Hcap' & Hwin' & Hlen').
  { unfold echo_answer_at. rewrite length_app. simpl.
    case_bool_decide as Hroom; injection Hecho as -> ->; simpl.
    - rewrite length_app. simpl. rewrite bool_decide_eq_true_2 by lia.
      split; [done|]. split; [done|]. split; [by apply Forall_app|lia].
    - rewrite bool_decide_eq_false_2 by lia. split; [done|]. split; [done|]. split; [done|lia]. }
  split; [done|]. simpl. do 3 (split; [done|]).
  split; [|split; [|split]].
  - intros h' data' [Hne Hh']%lookup_delete_Some. by apply Hinflight.
  - intros h' [Hh'| ->%list_elem_of_singleton]%elem_of_app; [by apply Hechoed|done].
  - intros h' answer' Hh'. destruct (decide (h = h')) as [->|Hne].
    + rewrite lookup_insert_eq in Hh'. injection Hh' as <-.
      exists (length s.(Cascade.echoed)), data. by rewrite list_lookup_middle.
    + rewrite lookup_insert_ne in Hh' by done.
      destruct (Hanswers h' answer' Hh') as (k & data' & Hk' & Hrec' & ->).
      exists k, data'. split; [by apply lookup_app_l_Some|done].
  - intros h' res Hh' Hne.
    destruct (Hresponses h' res Hh' Hne) as [Hfailed|(k & Hk' & Hcase)]; [by left|].
    right. exists k. split; [by apply lookup_app_l_Some|done].
Qed.

Lemma relayed_step (j : Cascade.Job) s s' :
  Cascade.step settle j s = Some s' →
  Forall (λ a, w < a ∧ a ≤ w + 60000) (Cascade.readings j) →
  relayed cs w s → relayed cs w s'.
Proof.
  intros Hstep Hclock Hrel.
  destruct j as [gj|h u1 u2 u3|h|h error|u1 u2].
  - destruct gj as [h d|now|h t2 t3|h result|t1 t2]; cbn [Cascade.step] in Hstep;
      try done;
      destruct (GateLoop.step _ s.(Cascade.gate)) as [g'|] eqn:Hgate; try done;
      injection Hstep as <-.
    + by eapply (relayed_gate _ s g' s.(Cascade.answers) s.(Cascade.failed)).
    + by eapply (relayed_gate _ s g' s.(Cascade.answers) s.(Cascade.failed)).
    + assert (relayed cs w (Cascade.mkSys g' s.(Cascade.rateLimiter) s.(Cascade.inflight)
                              s.(Cascade.answers) s.(Cascade.echoed) s.(Cascade.failed)))
        as Hrel' by by eapply (relayed_gate _ s g' s.(Cascade.answers) s.(Cascade.failed)).
      destruct (g'.(GateLoop.posting) !! h) as [data|] eqn:Hposting; [|done].
      by apply (relayed_post (Cascade.mkSys g' _ _ _ _ _)).
    + by eapply (relayed_gate _ s g' s.(Cascade.answers) s.(Cascade.failed)).
  - by eapply relayed_echo.
  - cbn [Cascade.step] in Hstep.
    destruct (s.(Cascade.answers) !! h) as [answer|] eqn:Hanswer; [|done].
    destruct (GateLoop.step _ s.(Cascade.gate)) as [g'|] eqn:Hgate; [|done].
    injection Hstep as <-.
    eapply (relayed_gate _ s g' (delete h s.(Cascade.answers)) s.(Cascade.failed));
      [done|by intros h' answer' [_ ?]%lookup_delete_Some|done| |done].
    intros h' result d [= <- <-] Hd. right.
    destruct Hrel as (_ & _ & _ & _ & _ & _ & Hanswers & _).
    destruct (Hanswers h answer Hanswer) as (k & data & Hk & Hrec & ->).
    assert (d = data) as -> by congruence.
    exists k. split; [done|]. unfold echo_answer_at. case_bool_decide.
    + by rewrite settle_ok.
    + by destruct (settle_overload (JObj [("message", JStr "Exceeding Limit")])) as [error ->].
  - cbn [Cascade.step] in Hstep.
    destruct (GateLoop.step _ s.(Cascade.gate)) as [g'|] eqn:Hgate; [|done].
    injection Hstep as <-.
    eapply (relayed_gate _ s g' s.(Cascade.answers) (s.(Cascade.failed) ++ [h]));
      [done|done|by intros h' Hh'; apply elem_of_app; left| |done].
    intros h' result d [= <- <-] Hd. left. split; [|done].
    apply elem_of_app. right. by apply list_elem_of_singleton.
  - cbn [Cascade.step Cascade.readings] in *.
    destruct Hrel as (Hbacked & Hcap & Hwin & Hrest).
    pose proof (sink_health_in_window u1 u2 _ Hclock Hwin) as Hsame.
    destruct (Sink.health u1 u2 _) as [res rl']. simpl in Hsame. subst rl'.
    injection Hstep as <-. by split.
Qed.

Lemma staged_step (j : Cascade.Job) s s' :
  Cascade.step settle j s = Some s' → staged s → staged s'.
Proof.
  intros Hstep (Hqueue & Honce & Hwaiting & Hsettled & Hposted & Hhandled).
  destruct j as [gj|h0 u1 u2 u3|h0|h0 error|u1 u2].
  - destruct gj as [h0 d|now|h0 t2 t3|h0 result|t1 t2]; cbn [Cascade.step GateLoop.step] in Hstep;
      try done.
    + destruct (s.(Cascade.gate).(GateLoop.received) !! h0) eqn:Hfresh; [done|].
      injection Hstep as <-. unfold staged. simpl.
      assert (∀ h, is_Some (s.(Cascade.gate).(GateLoop.received) !! h) → h ≠ h0) as Hne.
      { intros h [d' Hd'] ->. congruence. }
      split; [|split; [done|split; [|split; [|split; [|done]]]]].
      * apply NoDup_app. split; [done|]. split; [|apply NoDup_singleton].
        intros h Hh ->%list_elem_of_singleton. by destruct (Hne h0 (proj1 (Hwaiting h0 Hh))).
      * intros h [Hh| ->%list_elem_of_singleton]%elem_of_app.
        -- destruct (Hwaiting h Hh) as [Hrec Hnone]. split; [|done].
           apply lookup_insert_is_Some'. by right.
        -- split; [by rewrite lookup_insert_eq|].
           destruct (s.(Cascade.gate).(GateLoop.settled) !! h0) eqn:Hs; [|done].
           by destruct (Hne h0 (Hsettled h0 (mk_is_Some _ _ Hs))).
      * intros h Hh. apply lookup_insert_is_Some'. right. by apply Hsettled.
      * intros h Hh. destruct (Hposted h Hh) as (Hrec & Hnot & Hnone).
        split; [apply lookup_insert_is_Some'; by right|]. split; [|done].
        intros [Hin| ->%list_elem_of_singleton]%elem_of_app; [done|]. by apply (Hne h0).
    + destruct s.(Cascade.gate).(GateLoop.processing) as [|h1 rest] eqn:Hq; [done|].
      destruct (Throttler.canForward now _) as [r th']. injection Hstep as <-.
      unfold staged. simpl. apply NoDup_cons in Hqueue as [Hfirst Hrest].
      split; [done|]. split; [done|]. split; [|split; [|split; [|done]]].
      * intros h Hh. destruct (Hwaiting h) as [Hrec Hnone]; [by right|].
        split; [done|]. rewrite lookup_insert_ne; [done|]. by intros ->.
      * intros h [->|[_ Hh]]%lookup_insert_is_Some.
        -- apply Hwaiting. by left.
        -- by apply Hsettled.
      * intros h Hh. destruct (Hposted h Hh) as (Hrec & Hnot & Hnone).
        split; [done|]. split; [by intros Hin; apply Hnot; right|].
        rewrite lookup_insert_ne; [done|]. intros ->. apply Hnot. by left.
    + destruct (s.(Cascade.gate).(GateLoop.settled) !! h0) as [r|] eqn:Hr; [|done].
      destruct (s.(Cascade.gate).(GateLoop.received) !! h0) as [d|] eqn:Hd; [|done].
      assert (h0 ∉ s.(Cascade.gate).(GateLoop.processing)) as Hgone.
      { intros Hin. destruct (Hwaiting h0 Hin) as [_ Hnone]. congruence. }
      assert (h0 ∉ s.(Cascade.echoed)) as Hnew.
      { intros Hin. destruct (Hposted h0) as (_ & _ & Hnone); [by left|]. congruence. }
      destruct (Gate.afterCanForward d r t2 t3 _) as [[[res|data] th'] lines];
        injection Hstep as <-; unfold staged; simpl.
      * destruct (s.(Cascade.gate).(GateLoop.posting) !! h0) as [data|].
        all: split; [done|]; split; [done|]; split; [|split; [|split]].
        all: try (intros h Hh; destruct (Hwaiting h Hh) as [Hrec Hnone]; split; [done|];
                  apply lookup_delete_None; by right).
        all: try (intros h [_ Hh]%lookup_delete_is_Some; by apply Hsettled).
        -- intros h [Hh|[->|Hh]%lookup_insert_is_Some'].
           ++ destruct (Hposted h) as (Hrec & Hnot & Hnone); [by left|].
              split; [done|]. split; [done|]. apply lookup_delete_None. by right.
           ++ split; [done|]. split; [done|]. apply lookup_delete_eq.
           ++ destruct (Hposted h) as (Hrec & Hnot & Hnone); [by right|].
              split; [done|]. split; [done|]. apply lookup_delete_None. by right.
        -- intros h Hh. rewrite lookup_insert_ne; [by apply Hhandled|]. by intros ->.
        -- intros h Hh. destruct (Hposted h Hh) as (Hrec & Hnot & Hnone).
           split; [done|]. split; [done|]. apply lookup_delete_None. by right.
        -- done.
      * rewrite lookup_insert_eq.
        split; [done|]. split; [done|]. split; [|split; [|split]].
        -- intros h Hh. destruct (Hwaiting h Hh) as [Hrec Hnone]. split; [done|].
           apply lookup_delete_None. by right.
        -- intros h [_ Hh]%lookup_delete_is_Some. by apply Hsettled.
        -- intros h [Hh|[->|Hh]%lookup_insert_is_Some'].
           ++ destruct (Hposted h) as (Hrec & Hnot & Hnone); [by left|].
              split; [done|]. split; [done|]. apply lookup_delete_None. by right.
           ++ split; [done|]. split; [done|]. apply lookup_delete_eq.
           ++ destruct (Hposted h) as (Hrec & Hnot & Hnone); [by right|].
              split; [done|]. split; [done|]. apply lookup_delete_None. by right.
        -- intros h Hh. rewrite lookup_insert_ne; [by apply Hhandled|]. by intros ->.
    + destruct (Gate.health t1 t2 _) as [res th']. by injection Hstep as <-.
  - cbn [Cascade.step] in Hstep.
    destruct (s.(Cascade.inflight) !! h0) as [data|] eqn:Hdata; [|done].
    destruct (Sink.echo data u1 u2 u3 _) as [[answer rl'] lines]. injection Hstep as <-.
    unfold staged. simpl.
    split; [done|]. split; [|split; [done|split; [done|split]]].
    + apply NoDup_app. split; [done|]. split; [|apply NoDup_singleton].
      intros h Hh ->%list_elem_of_singleton. specialize (Hhandled h0 Hh). congruence.
    + intros h [[Hh| ->%list_elem_of_singleton]%elem_of_app|[_ Hh]%lookup_delete_is_Some].
      * apply Hposted. by left.
      * apply Hposted. right. by rewrite Hdata.
      * apply Hposted. by right.
    + intros h [Hh| ->%list_elem_of_singleton]%elem_of_app.
      * apply lookup_delete_None. right. by apply Hhandled.
      * apply lookup_delete_eq.
  - cbn [Cascade.step GateLoop.step] in Hstep.
    destruct (s.(Cascade.answers) !! h0) as [answer|]; [|done].
    destruct (s.(Cascade.gate).(GateLoop.posting) !! h0) as [d'|]; [|done].
    destruct (s.(Cascade.gate).(GateLoop.received) !! h0) as [d|]; [|done].
    destruct (Gate.afterPost d (settle answer)) as [res lines]. by injection Hstep as <-.
  - cbn [Cascade.step GateLoop.step] in Hstep.
    destruct (s.(Cascade.gate).(GateLoop.posting) !! h0) as [d'|]; [|done].
    destruct (s.(Cascade.gate).(GateLoop.received) !! h0) as [d|]; [|done].
    destruct (Gate.afterPost d (Rejected error)) as [res lines]. by injection Hstep as <-.
  - cbn [Cascade.step] in Hstep.
    destruct (Sink.health u1 u2 _) as [res rl']. by injection Hstep as <-.
Qed.

(** ** Runs of the two services *)

(** The jobs of the Throttle Service within a job of the two services. *)
Lemma cascade_gate_step (j : Cascade.Job) s s' :
  Cascade.step settle j s = Some s' →
  ∃ gjs, GateLoop.exec gjs s.(Cascade.gate) = Some s'.(Cascade.gate) ∧
    GateLoop.arrivals gjs = Cascade.arrivals [j] ∧
    ∀ P : Z → Prop, Forall P (Cascade.readings j) →
      Forall P (concat (map GateLoop.readings gjs)).
Proof.
  intros Hstep. destruct j as [gj|h u1 u2 u3|h|h error|u1 u2]; cbn [Cascade.step] in Hstep.
  - exists [gj].
    assert (GateLoop.step gj s.(Cascade.gate) = Some s'.(Cascade.gate)) as Hgate.
    { destruct gj; try done;
        destruct (GateLoop.step _ s.(Cascade.gate)) as [g'|]; try done;
        by injection Hstep as <-. }
    simpl. rewrite Hgate. split; [done|]. split; [by destruct gj|].
    intros P HP. by rewrite app_nil_r.
  - exists []. destruct (s.(Cascade.inflight) !! h) as [data|]; [|done].
    destruct (Sink.echo data u1 u2 u3 _) as [[answer rl'] lines]. injection Hstep as <-.
    by repeat split.
  - destruct (s.(Cascade.answers) !! h) as [answer|]; [|done].
    destruct (GateLoop.step _ s.(Cascade.gate)) as [g'|] eqn:Hgate; [|done].
    injection Hstep as <-. exists [GateLoop.PostSettled h (settle answer)].
    cbn [GateLoop.exec]. rewrite Hgate. by repeat split.
  - destruct (GateLoop.step _ s.(Cascade.gate)) as [g'|] eqn:Hgate; [|done].
    injection Hstep as <-. exists [GateLoop.PostSettled h (Rejected error)].
    cbn [GateLoop.exec]. rewrite Hgate. by repeat split.
  - exists []. destruct (Sink.health u1 u2 _) as [res rl']. injection Hstep as <-.
    by repeat split.
Qed.

Lemma cascade_gate_exec (js : list Cascade.Job) : ∀ s s',
  Cascade.exec settle js s = Some s' →
  ∃ gjs, GateLoop.exec gjs s.(Cascade.gate) = Some s'.(Cascade.gate) ∧
    GateLoop.arrivals gjs = Cascade.arrivals js ∧
    ∀ P : Z → Prop, Forall P (concat (map Cascade.readings js)) →
      Forall P (concat (map GateLoop.readings gjs)).
Proof.
  induction js as [|j js IH]; intros s s' Hexec; simpl in Hexec.
  { injection Hexec as <-. by exists []. }
  destruct (Cascade.step settle j s) as [s1|] eqn:Hstep; [|done].
  destruct (cascade_gate_step j s s1 Hstep) as (gjs1 & Hexec1 & Harr1 & Hclock1).
  destruct (IH s1 s' Hexec) as (gjs2 & Hexec2 & Harr2 & Hclock2).
  exists (gjs1 ++ gjs2). split; [|split].
  - rewrite gate_exec_app, Hexec1. done.
  - unfold GateLoop.arrivals, Cascade.arrivals in *.
    rewrite bind_app, Harr1, Harr2. change (j :: js) with ([j] ++ js). by rewrite bind_app.
  - intros P [Hj Hjs]%Forall_app. rewrite map_app, concat_app. apply Forall_app.
    split; [by apply Hclock1|by apply Hclock2].
Qed.

Lemma gate_filled_exec (gjs : list GateLoop.Job) : ∀ g g',
  GateLoop.exec gjs g = Some g' →
  Forall (λ a, w < a ∧ a ≤ w + 60000) (concat (map GateLoop.readings gjs)) →
  gate_filled cg w g → gate_filled cg w g'.
Proof.
  induction gjs as [|j gjs IH]; intros g g' Hexec Hclock Hfilled; simpl in *.
  { by injection Hexec as <-. }
  destruct (GateLoop.step j g) as [g1|] eqn:Hstep; [|done].
  apply Forall_app in Hclock as [Hj Hjs].
  eapply IH; [done|done|]. by eapply gate_filled_step.
Qed.

Lemma cascade_exec_keeps (js : list Cascade.Job) : ∀ s s',
  Cascade.exec settle js s = Some s' →
  Forall (λ a, w < a ∧ a ≤ w + 60000) (concat (map Cascade.readings js)) →
  relayed cs w s ∧ staged s → relayed cs w s' ∧ staged s'.
Proof.
  induction js as [|j js IH]; intros s s' Hexec Hclock [Hrel Hstaged]; simpl in *.
  { by injection Hexec as <-. }
  destruct (Cascade.step settle j s) as [s1|] eqn:Hstep; [|done].
  apply Forall_app in Hclock as [Hj Hjs].
  eapply IH; [done|done|]. split; [by eapply relayed_step|by eapply staged_step].
Qed.

Lemma cascade_window (js : list Cascade.Job) s' :
  0 ≤ cg → 0 ≤ cs →
  Forall (λ a, w < a ∧ a ≤ w + 60000) (concat (map Cascade.readings js)) →
  Cascade.exec settle js (Cascade.init (Throttler.mk [] cg 0) (RateLimiter.mk [] cs)) = Some s' →
  (∀ h res, s'.(Cascade.gate).(GateLoop.responses) !! h = Some res →
     ∃ i : nat, Cascade.arrivals js !! i = Some h ∧
       if bool_decide (cg ≤ Z.of_nat i) then res.(status) = 429
       else (h ∈ s'.(Cascade.failed) ∧ res.(status) = 500) ∨
            (∃ k : nat, s'.(Cascade.echoed) !! k = Some h ∧
               if bool_decide (Z.of_nat k < cs)
               then res.(status) = 200 ∧
                    s'.(Cascade.gate).(GateLoop.received) !! h = Some res.(body)
               else res.(status) = 500)) ∧
  (∀ h, h ∈ s'.(Cascade.echoed) →
     ∃ i : nat, Cascade.arrivals js !! i = Some h ∧ Z.of_nat i < cg) ∧
  NoDup (Cascade.arrivals js) ∧
  NoDup s'.(Cascade.echoed) ∧
  Z.of_nat (length s'.(Cascade.gate).(GateLoop.throttler).(Throttler.calls))
    = Z.of_nat (length s'.(Cascade.gate).(GateLoop.decisions)) `min` cg ∧
  s'.(Cascade.gate).(GateLoop.throttler).(Throttler.throttledCount)
    = 0 `max` (Z.of_nat (length s'.(Cascade.gate).(GateLoop.decisions)) - cg) ∧
  Z.of_nat (length s'.(Cascade.rateLimiter).(RateLimiter.calls))
    = Z.of_nat (length s'.(Cascade.echoed)) `min` cs.
Proof.
  intros Hcg Hcs Hclock Hexec.
  destruct (cascade_gate_exec js _ s' Hexec) as (gjs & Hgexec & Harr & Hgclock).
  simpl in Hgexec. specialize (Hgclock _ Hclock).
  assert (gate_filled cg w s'.(Cascade.gate)) as (Hcap & Hwin & Hlen & Htc & Hdec).
  { eapply gate_filled_exec; [done|done|]. unfold gate_filled. simpl.
    split; [done|]. split; [done|]. split; [lia|]. split; [lia|]. by intros i d Hd. }
  pose proof (decisions_in_arrival_order gjs _ _ Hgexec) as Horder.
  simpl in Horder. rewrite Harr in Horder.
  assert (NoDup (Cascade.arrivals js)) as Hnodup.
  { rewrite <-Horder. eapply (chained_exec gjs); [done|].
    split; [constructor|]. by intros h Hh%elem_of_nil. }
  destruct (cascade_exec_keeps js _ s' Hexec Hclock) as [Hrel Hstaged].
  { split.
    - split; [by repeat split|]. simpl. split; [done|]. split; [done|]. split; [lia|].
      split; [done|]. split; [by intros h Hh%elem_of_nil|]. by split.
    - unfold staged. simpl. split; [constructor|]. split; [constructor|].
      split; [by intros h Hh%elem_of_nil|]. split; [by intros h [? ?]|].
      split; [|by intros h Hh%elem_of_nil].
      intros h [Hh%elem_of_nil|[? ?]]; done. }
  destruct Hrel as (Hbacked & Hcaps & Hwins & Hlens & _ & Hechoed & _ & Hresponses).
  destruct Hbacked as (_ & _ & Hanswered).
  assert (∀ h now r, (h, now, r) ∈ s'.(Cascade.gate).(GateLoop.decisions) →
            ∃ i : nat, Cascade.arrivals js !! i = Some h ∧ r = bool_decide (Z.of_nat i < cg))
    as Hindex.
  { intros h now r [i Hi]%list_elem_of_lookup_1. exists i. split; [|by apply (Hdec i _ Hi)].
    rewrite <-Horder. apply lookup_app_l_Some. by rewrite list_lookup_fmap, Hi. }
  split; [|split; [|split; [done|split; [by destruct Hstaged as (_ & ? & _)|done]]]].
  - intros h res Hres. destruct (Hanswered h res Hres) as [now Hin].
    destruct (Hindex _ _ _ Hin) as (i & Hi & Hr). exists i. split; [done|].
    destruct (decide (cg ≤ Z.of_nat i)) as [Hfull|Hroom].
    + rewrite (bool_decide_eq_true_2 (cg ≤ Z.of_nat i)) by done.
      rewrite (bool_decide_eq_false_2 (Z.of_nat i < cg)) in Hr by lia.
      apply bool_decide_eq_false in Hr.
      destruct (decide (res.(status) = 429)); [done|]. by destruct Hr.
    + rewrite (bool_decide_eq_false_2 (cg ≤ Z.of_nat i)) by done.
      apply Hresponses; [done|].
      rewrite (bool_decide_eq_true_2 (Z.of_nat i < cg)) in Hr by lia.
      by apply bool_decide_eq_true in Hr.
  - intros h Hh. destruct (Hechoed h Hh) as [now Hin].
    destruct (Hindex _ _ _ Hin) as (i & Hi & Hr). exists i. split; [done|].
    symmetry in Hr. by apply bool_decide_eq_true in Hr.
Qed.

End cascade.

(** X4.  A burst through the two services in a row, the Throttle Service of
    capacity [cg] posting to the Echo Service of capacity [cs], both
    fresh, with every clock reading in one window and an HTTP client that
    resolves a 200 answer with its body and rejects a 429 answer.  However
    the jobs of the two services interleave, and in whatever order the
    posts reach the Echo Service: a request is answered 429 exactly when
    [cg] requests arrived before it; otherwise it is answered 500 when its
    post ended without an answer, and when its post was the [k]-th that
    the Echo Service handled, 200 with its own body for [k < cs] and 500
    from [cs] on.  The Echo Service handles only posts of admitted
    requests, each once.  The Throttle Service holds [min n cg] timestamps
    and has turned away [max 0 (n - cg)] of the [n] requests it decided;
    the Echo Service holds [min m cs] for the [m] posts it handled. *)
Theorem cascade_in_one_window (settle : Response → PostResult) (cg cs w : Z)
    (js : list Cascade.Job) (s' : Cascade.Sys) :
  (∀ data, settle (mkResponse 200 data) = Resolved data) →
  (∀ b, ∃ error, settle (mkResponse 429 b) = Rejected error) →
  0 ≤ cg → 0 ≤ cs →
  Forall (λ a, w < a ∧ a ≤ w + 60000) (concat (map Cascade.readings js)) →
  Cascade.exec settle js (Cascade.init (Throttler.mk [] cg 0) (RateLimiter.mk [] cs)) = Some s' →
  (∀ h res, s'.(Cascade.gate).(GateLoop.responses) !! h = Some res →
     ∃ i : nat, Cascade.arrivals js !! i = Some h ∧
       if bool_decide (cg ≤ Z.of_nat i) then res.(status) = 429
       else (h ∈ s'.(Cascade.failed) ∧ res.(status) = 500) ∨
            (∃ k : nat, s'.(Cascade.echoed) !! k = Some h ∧
               if bool_decide (Z.of_nat k < cs)
               then res.(status) = 200 ∧
                    s'.(Cascade.gate).(GateLoop.received) !! h = Some res.(body)
               else res.(status) = 500)) ∧
  (∀ h, h ∈ s'.(Cascade.echoed) →
     ∃ i : nat, Cascade.arrivals js !! i = Some h ∧ Z.of_nat i < cg) ∧
  NoDup (Cascade.arrivals js) ∧
  NoDup s'.(Cascade.echoed) ∧
  Z.of_nat (length s'.(Cascade.gate).(GateLoop.throttler).(Throttler.calls))
    = Z.of_nat (length s'.(Cascade.gate).(GateLoop.decisions)) `min` cg ∧
  s'.(Cascade.gate).(GateLoop.throttler).(Throttler.throttledCount)
    = 0 `max` (Z.of_nat (length s'.(Cascade.gate).(GateLoop.decisions)) - cg) ∧
  Z.of_nat (length s'.(Cascade.rateLimiter).(RateLimiter.calls))
    = Z.of_nat (length s'.(Cascade.echoed)) `min` cs.
Proof.
  intros Hok Hoverload Hcg Hcs Hclock Hexec.
  by apply (cascade_window settle Hok Hoverload cg cs w js s').
Qed.

Lemma cascade_in_one_window_witness :
  ∃ s',
    Cascade.exec
      (λ answer,
         if bool_decide (answer.(status) = 200) then Resolved answer.(body)
         else Rejected (mkThrown true (statusMessage answer.(status)) true
                                 (Some answer.(status))))
      [Cascade.Throttle (GateLoop.Request 1 (JNum 1));
       Cascade.Throttle (GateLoop.Request 2 (JNum 2));
       Cascade.Throttle (GateLoop.Request 3 (JNum 3));
       Cascade.Throttle (GateLoop.Callback 5); Cascade.Throttle (GateLoop.Callback 5);
       Cascade.Throttle (GateLoop.Callback 6);
       Cascade.Throttle (GateLoop.Resume 1 6 6); Cascade.Throttle (GateLoop.Resume 2 6 6);
       Cascade.Throttle (GateLoop.Resume 3 7 7);
       Cascade.Echo 2 8 8 8; Cascade.Echo 1 8 8 9; Cascade.Deliver 1; Cascade.Deliver 2]
      (Cascade.init (Throttler.mk [] 2 0) (RateLimiter.mk [] 1)) = Some s' ∧
    s'.(Cascade.echoed) = [2; 1]%nat ∧
    status <$> s'.(Cascade.gate).(GateLoop.responses) !! 1%nat = Some 500 ∧
    status <$> s'.(Cascade.gate).(GateLoop.responses) !! 2%nat = Some 200 ∧
    status <$> s'.(Cascade.gate).(GateLoop.responses) !! 3%nat = Some 429 ∧
    Z.of_nat (length s'.(Cascade.rateLimiter).(RateLimiter.calls))
      = Z.of_nat (length s'.(Cascade.echoed)) `min` 1.
Proof.
  pose (settle := λ answer : Response,
          if bool_decide (answer.(status) = 200) then Resolved answer.(body)
          else Rejected (mkThrown true (statusMessage answer.(status)) true
                                  (Some answer.(status)))).
  pose (js := [Cascade.Throttle (GateLoop.Request 1 (JNum 1));
               Cascade.Throttle (GateLoop.Request 2 (JNum 2));
               Cascade.Throttle (GateLoop.Request 3 (JNum 3));
               Cascade.Throttle (GateLoop.Callback 5); Cascade.Throttle (GateLoop.Callback 5);
               Cascade.Throttle (GateLoop.Callback 6);
               Cascade.Throttle (GateLoop.Resume 1 6 6);
               Cascade.Throttle (GateLoop.Resume 2 6 6);
               Cascade.Throttle (GateLoop.Resume 3 7 7);
               Cascade.Echo 2 8 8 8; Cascade.Echo 1 8 8 9; Cascade.Deliver 1;
               Cascade.Deliver 2]).
  assert (∃ s', Cascade.exec settle js
                  (Cascade.init (Throttler.mk [] 2 0) (RateLimiter.mk [] 1)) = Some s' ∧
                s'.(Cascade.echoed) = [2; 1]%nat ∧
                status <$> s'.(Cascade.gate).(GateLoop.responses) !! 1%nat = Some 500 ∧
                status <$> s'.(Cascade.gate).(GateLoop.responses) !! 2%nat = Some 200 ∧
                status <$> s'.(Cascade.gate).(GateLoop.responses) !! 3%nat = Some 429)
    as (s' & Hexec & Hrest).
  { eexists. split; [vm_compute; reflexivity|]. repeat split; vm_compute; reflexivity. }
  exists s'. split; [exact Hexec|]. destruct Hrest as (He & H1 & H2 & H3).
  do 4 (split; [assumption|]).
  refine (proj2 (proj2 (proj2 (proj2 (proj2 (proj2
    (cascade_in_one_window settle 2 1 0 js s' _ _ _ _ _ Hexec))))))).
  - intros data. reflexivity.
  - intros b. eexists. reflexivity.
  - lia.
  - lia.
  - simpl. repeat constructor; lia.
Defined.
